(** * whats_new.py: a shallow embedding and its verified properties

    The program shells out to git, keeps the tags that look like semantic
    versions, sorts them, finds the version before the requested one, reads
    the commit subjects in between and formats them, through a text-generation
    service when it answers and as a plain bulleted list when it does not.

    Python [str] values are sequences of Unicode code points, and three of
    the operations the program relies on ([str.strip], [str.splitlines] and
    the regular-expression class [\d]) are defined on code points, so the
    embedding keeps them: a string is a list of code points. *)

From Stdlib Require Import List NArith ZArith String Ascii Bool Lia.
From Stdlib Require Import Sorting.Sorted Sorting.Permutation.
Import ListNotations.

(** ** Python strings *)

Module Py.

Definition char := N.
Definition str := list char.

(** An ASCII literal of the source, as code points. *)
Definition lit (s : string) : str :=
  List.map N_of_ascii (list_ascii_of_string s).

Definition LF : char := 10%N.
Definition CR : char := 13%N.
Definition QUOTE : char := 34%N.      (* the double quote *)
Definition BULLET : char := 8226%N.   (* U+2022, the bullet of the source *)

Definition in_range (lo hi c : N) : bool := (N.leb lo c && N.leb c hi)%bool.

Fixpoint str_eqb (a b : str) : bool :=
  match a, b with
  | [], [] => true
  | x :: a', y :: b' => (N.eqb x y && str_eqb a' b')%bool
  | _, _ => false
  end.

(** [str.isspace] on one character, the set [str.strip] removes. *)
Definition isspace (c : char) : bool :=
  (in_range 9 13 c || in_range 28 32 c || N.eqb c 133 || N.eqb c 160
   || N.eqb c 5760 || in_range 8192 8202 c || N.eqb c 8232 || N.eqb c 8233
   || N.eqb c 8239 || N.eqb c 8287 || N.eqb c 12288)%bool.

(** The line boundaries of [str.splitlines]. *)
Definition islinebreak (c : char) : bool :=
  (in_range 10 13 c || in_range 28 30 c || N.eqb c 133
   || N.eqb c 8232 || N.eqb c 8233)%bool.

(** First code points of the blocks of ten decimal digits (general
    category Nd) outside the mathematical digits, which fill one longer
    range. *)
Definition decimal_blocks : list N :=
  [ 48; 1632; 1776; 1984; 2406; 2534; 2662; 2790; 2918; 3046; 3174; 3302;
    3430; 3558; 3664; 3792; 3872; 4160; 4240; 6112; 6160; 6470; 6608; 6784;
    6800; 6992; 7088; 7232; 7248; 42528; 43216; 43264; 43472; 43504; 43600;
    44016; 65296; 66720; 68912; 69734; 69872; 69942; 70096; 70384; 70736;
    70864; 71248; 71360; 71472; 71904; 72016; 72784; 73040; 73120; 73552;
    92768; 92864; 93008; 123200; 123632; 124144; 125264; 130032 ]%N.

(** The class [\d] of a [str] pattern: any Unicode decimal digit, not only
    [0-9]. *)
Definition isdecimal (c : char) : bool :=
  (existsb (fun b => in_range b (b + 9) c) decimal_blocks
   || in_range 120782 120831 c)%bool.

(** [0-9] *)
Definition is_ascii_digit (c : char) : bool := in_range 48 57 c.

Fixpoint lstrip (s : str) : str :=
  match s with
  | c :: s' => if isspace c then lstrip s' else s
  | [] => []
  end.

Definition rstrip (s : str) : str := rev (lstrip (rev s)).

(** [s.strip()]: whitespace removed at both ends. *)
Definition strip (s : str) : str := rstrip (lstrip s).

(** [s.splitlines()]: [cur] holds the current line, reversed.  A line
    boundary closes the current line, [\r\n] counts as one boundary, and
    text after the last boundary is a line only when it is not empty. *)
Fixpoint splitlines_from (cur : str) (s : str) : list str :=
  match s with
  | [] => match cur with [] => [] | _ => [rev cur] end
  | c :: rest =>
      if islinebreak c then
        rev cur ::
        match rest with
        | c' :: rest' =>
            if (N.eqb c CR && N.eqb c' LF)%bool
            then splitlines_from [] rest'
            else splitlines_from [] rest
        | [] => splitlines_from [] rest
        end
      else splitlines_from (c :: cur) rest
  end.

Definition splitlines (s : str) : list str := splitlines_from [] s.

(** [sep.join(parts)] *)
Fixpoint join (sep : str) (parts : list str) : str :=
  match parts with
  | [] => []
  | [p] => p
  | p :: ps => p ++ sep ++ join sep ps
  end.

(** [s.split(sep)] for a one-character separator; [cur] is reversed. *)
Fixpoint split_from (sep : char) (cur : str) (s : str) : list str :=
  match s with
  | [] => [rev cur]
  | c :: rest =>
      if N.eqb c sep then rev cur :: split_from sep [] rest
      else split_from sep (c :: cur) rest
  end.

Definition split (sep : char) (s : str) : list str := split_from sep [] s.

(** ** Exceptions

    The classes the program raises or catches.  [Foreign] stands for an
    error raised inside a callee the program does not define (the
    subprocess module, the service client, the output stream); the flag
    says whether its class derives from [Exception].  [KeyboardInterrupt]
    and [SystemExit] are the usual ones that do not. *)
Inductive exc_class :=
| Exception_
| ValueError
| IndexError
| AttributeError
| InvalidVersion
| Foreign (name : string) (derives_from_Exception : bool).

(** The message is kept when the program writes it, and left out when the
    interpreter or a library supplies it. *)
Record exn := mk_exn { exn_class : exc_class; exn_msg : option str }.

(** [isinstance(e, Exception)], what [except Exception] tests. *)
Definition isinstance_Exception (e : exn) : bool :=
  match exn_class e with
  | Foreign _ b => b
  | _ => true
  end.

Inductive result (A : Type) :=
| Ok (a : A)
| Raise (e : exn).

Arguments Ok {A} a.
Arguments Raise {A} e.

End Py.

Import Py.

Arguments isdecimal : simpl never.
Arguments isspace : simpl never.
Arguments islinebreak : simpl never.

Definition DOT : char := 46%N.
Definition LOWER_V : char := 118%N.
Definition SPACE : char := 32%N.

(** ** Regular expressions

    The fragment the tag pattern is written in, with the usual
    language-of-a-regex semantics.  [re.match] succeeds exactly when some
    way of splitting the subject satisfies it. *)

Module Re.

Inductive regex :=
| Chr (c : char)
| Digit
| Cat (r1 r2 : regex)
| Opt (r : regex)
| Plus (r : regex).

Inductive matches : regex -> str -> Prop :=
| MChr c : matches (Chr c) [c]
| MDigit c : isdecimal c = true -> matches Digit [c]
| MCat r1 r2 s1 s2 :
    matches r1 s1 -> matches r2 s2 -> matches (Cat r1 r2) (s1 ++ s2)
| MOptNone r : matches (Opt r) []
| MOptSome r s : matches r s -> matches (Opt r) s
| MPlusOne r s : matches r s -> matches (Plus r) s
| MPlusMore r s1 s2 :
    matches r s1 -> matches (Plus r) s2 -> matches (Plus r) (s1 ++ s2).

(** [v?] and the group [(\d+\.\d+\.\d+)] of the pattern of
    [get_all_semver_tags]. *)
Definition v_prefix : regex := Opt (Chr LOWER_V).

Definition semver_group : regex :=
  Cat (Plus Digit)
      (Cat (Chr DOT) (Cat (Plus Digit) (Cat (Chr DOT) (Plus Digit)))).

(** [$] without the MULTILINE flag: the end of the subject, or the position
    of a newline that is its last character. *)
Definition dollar (rest : str) : Prop := rest = [] \/ rest = [LF].

(** [re.match(r"^v?(\d+\.\d+\.\d+)$", tag)] succeeds with [group(1) = g]. *)
Definition semver_pattern_matches (tag g : str) : Prop :=
  exists pre rest,
    tag = pre ++ g ++ rest /\
    matches v_prefix pre /\ matches semver_group g /\ dollar rest.

(** The matcher the engine runs on this pattern, written out: every
    quantifier is greedy. *)
Fixpoint span_digits (s : str) : str * str :=
  match s with
  | c :: s' =>
      if isdecimal c
      then let (d, r) := span_digits s' in (c :: d, r)
      else ([], s)
  | [] => ([], [])
  end.

(** [\d+] *)
Definition digits1 (s : str) : option (str * str) :=
  match span_digits s with
  | ([], _) => None
  | (d, r) => Some (d, r)
  end.

Definition expect (c : char) (s : str) : option str :=
  match s with
  | c' :: r => if N.eqb c' c then Some r else None
  | [] => None
  end.

Definition at_dollar (rest : str) : bool :=
  match rest with
  | [] => true
  | [c] => N.eqb c LF
  | _ => false
  end.

Definition match_group (s : str) : option str :=
  match digits1 s with
  | None => None
  | Some (d1, r1) =>
  match expect DOT r1 with
  | None => None
  | Some r2 =>
  match digits1 r2 with
  | None => None
  | Some (d2, r3) =>
  match expect DOT r3 with
  | None => None
  | Some r4 =>
  match digits1 r4 with
  | None => None
  | Some (d3, r5) =>
      if at_dollar r5 then Some (d1 ++ [DOT] ++ d2 ++ [DOT] ++ d3) else None
  end end end end end.

(** The whole pattern: [v?] takes the "v" when there is one and the engine
    comes back to the empty alternative when the rest then fails. *)
Definition semver_match (tag : str) : option str :=
  match tag with
  | c :: rest =>
      if N.eqb c LOWER_V then
        match match_group rest with
        | Some g => Some g
        | None => match_group tag
        end
      else match_group tag
  | [] => match_group tag
  end.

End Re.

(** ** packaging.version

    [version.parse] (packaging 22 and later) on the strings the program gives
    it, which are made of decimal digits and dots: the release segment of a
    version is [[0-9]+(\.[0-9]+)*], so a digit outside [0-9] makes the string
    an invalid version.  Versions compare by their key, whose release part
    is the tuple of integers with its trailing zeros removed; the other
    parts of the key are the same for all release-only versions.  [int] is
    taken on every string of digits: the cap the interpreter can put on
    their number is not modelled. *)

Module Packaging.

Fixpoint int_of_digits (acc : N) (s : str) : option N :=
  match s with
  | [] => Some acc
  | c :: s' =>
      if is_ascii_digit c
      then int_of_digits (10 * acc + (c - 48)) s'
      else None
  end.

(** One component of the release segment, [[0-9]+], through [int]. *)
Definition component (s : str) : option N :=
  match s with
  | [] => None
  | _ => int_of_digits 0 s
  end.

Fixpoint components (parts : list str) : option (list N) :=
  match parts with
  | [] => Some []
  | p :: ps =>
      match component p, components ps with
      | Some n, Some ns => Some (n :: ns)
      | _, _ => None
      end
  end.

Record Version := mk_version { release : list N }.

Definition parse (s : str) : result Version :=
  match components (Py.split DOT s) with
  | Some rel => Ok (mk_version rel)
  | None => Raise (mk_exn InvalidVersion None)
  end.

Fixpoint drop_zeros (l : list N) : list N :=
  match l with
  | n :: l' => if N.eqb n 0 then drop_zeros l' else l
  | [] => []
  end.

(** The release part of [Version._key]. *)
Definition key (v : Version) : list N := rev (drop_zeros (rev (release v))).

(** [<] on tuples of integers. *)
Fixpoint tuple_lt (a b : list N) : bool :=
  match a, b with
  | [], [] => false
  | [], _ :: _ => true
  | _ :: _, [] => false
  | x :: a', y :: b' => if N.eqb x y then tuple_lt a' b' else N.ltb x y
  end.

Definition version_lt (a b : Version) : bool := tuple_lt (key a) (key b).

End Packaging.

(** ** The world outside the program

    What the program cannot compute by itself is asked of the world: running
    a subprocess, resolving a path, constructing the service client, calling
    the service, writing to standard output.  Every one of them can raise. *)

Record CompletedProcess := mk_process {
  returncode : Z;
  stdout : str;
  stderr : str
}.

(** A block of a service reply: a text block has the attribute [text], any
    other kind of block does not. *)
Inductive ContentBlock :=
| TextBlock (text : str)
| OtherBlock.

Record Message := mk_message { content : list ContentBlock }.

Record Request := mk_request {
  model : str;
  max_tokens : Z;
  temperature_tenths : Z;           (* temperature=0.7 is 7 tenths *)
  system : str;
  messages : list (str * str)       (* role, content *)
}.

Record World := mk_world {
  subprocess_run : list str -> result CompletedProcess;
  os_path_abspath : str -> result str;
  Anthropic : result unit;
  messages_create : Request -> result Message;
  sys_stdout_write : str -> result unit
}.

(** What a run does to the world, in order. *)
Inductive event :=
| Spawn (argv : list str)
| ClientInit
| ServiceCall (req : Request)
| Printed (s : str).

(** A computation returns or raises, and leaves the events it caused. *)
Definition M (A : Type) : Type := (result A * list event)%type.

Definition ret {A} (a : A) : M A := (Ok a, []).
Definition raise {A} (c : exc_class) (msg : option str) : M A :=
  (Raise (mk_exn c msg), []).

Definition bind {A B} (m : M A) (f : A -> M B) : M B :=
  match m with
  | (Ok a, t) => let (r, t') := f a in (r, t ++ t')
  | (Raise e, t) => (Raise e, t)
  end.

(** [try: body  except Exception as e: handler]: errors whose class does
    not derive from [Exception] pass through. *)
Definition try_except_Exception {A} (body : M A) (handler : exn -> M A) : M A :=
  match body with
  | (Ok a, t) => (Ok a, t)
  | (Raise e, t) =>
      if isinstance_Exception e
      then let (r, t') := handler e in (r, t ++ t')
      else (Raise e, t)
  end.

Definition perform {A} (ev : event) (r : result A) : M A := (r, [ev]).

Notation "x <- m ;; k" := (bind m (fun x => k))
  (at level 61, m at next level, right associativity).

Definition value {A} (m : M A) : result A := fst m.
Definition trace {A} (m : M A) : list event := snd m.


(** ** Lists *)

(** [l.index(x)] *)
Fixpoint list_index (x : str) (l : list str) : option nat :=
  match l with
  | [] => None
  | y :: l' =>
      if str_eqb y x then Some O
      else match list_index x l' with
           | Some i => Some (S i)
           | None => None
           end
  end.

(** [x in l] *)
Definition list_contains (x : str) (l : list str) : bool :=
  existsb (fun y => str_eqb y x) l.

(** [l.sort(key=f)]: the keys are computed first, one call per element in
    order, and an error of [f] ends the sort.  The sort is stable and
    compares keys with [<] only; a stable sort has one possible result, which
    the insertion below computes. *)
Fixpoint with_keys {A K} (f : A -> result K) (l : list A)
  : result (list (A * K)) :=
  match l with
  | [] => Ok []
  | x :: l' =>
      match f x with
      | Raise e => Raise e
      | Ok k =>
          match with_keys f l' with
          | Raise e => Raise e
          | Ok kl => Ok ((x, k) :: kl)
          end
      end
  end.

Fixpoint insert_keyed {A K} (lt : K -> K -> bool) (x : A * K)
  (l : list (A * K)) : list (A * K) :=
  match l with
  | [] => [x]
  | y :: l' =>
      if lt (snd y) (snd x) then y :: insert_keyed lt x l' else x :: l
  end.

Definition sort_keyed {A K} (lt : K -> K -> bool) (l : list (A * K))
  : list (A * K) :=
  fold_right (insert_keyed lt) [] l.

Definition list_sort {A K} (f : A -> result K) (lt : K -> K -> bool)
  (l : list A) : result (list A) :=
  match with_keys f l with
  | Raise e => Raise e
  | Ok kl => Ok (List.map fst (sort_keyed lt kl))
  end.

(** ** The program *)

(** run_git_command(repo_path, args) *)
Definition run_git_command (w : World) (repo_path : str) (args : list str)
  : M str :=
  let argv := [lit "git"; lit "-C"; repo_path] ++ args in
  result_ <- perform (Spawn argv) (subprocess_run w argv) ;;
  if negb (Z.eqb (returncode result_) 0)
  then raise Exception_ (Some (lit "Git error: " ++ stderr result_))
  else ret (strip (stdout result_)).

(** The [for] loop of [get_all_semver_tags]. *)
Fixpoint collect_semver (raw_tags : list str) : list str :=
  match raw_tags with
  | [] => []
  | tag :: rest =>
      match Re.semver_match tag with
      | Some g => g :: collect_semver rest
      | None => collect_semver rest
      end
  end.

(** get_all_semver_tags(repo_path) *)
Definition get_all_semver_tags (w : World) (repo_path : str) : M (list str) :=
  out <- run_git_command w repo_path [lit "tag"] ;;
  let raw_tags := splitlines out in
  let semver_tags := collect_semver raw_tags in
  (list_sort Packaging.parse Packaging.version_lt semver_tags, []).

(** find_previous_version(all_versions, current_version); [None] of the
    source is [Ok None]. *)
Definition find_previous_version (all_versions : list str)
  (current_version : str) : M (option str) :=
  match list_index current_version all_versions with
  | None => raise ValueError None
  | Some current_idx =>
      if Nat.ltb 0 current_idx then
        match nth_error all_versions (current_idx - 1) with
        | Some v => ret (Some v)
        | None => raise IndexError None
        end
      else ret None
  end.

(** get_commits_between_versions(repo_path, from_version, to_version) *)
Definition get_commits_between_versions (w : World)
  (repo_path from_version to_version : str) : M (list str) :=
  log <- run_git_command w repo_path
           [lit "log"; from_version ++ lit ".." ++ to_version;
            lit "--pretty=format:%s"] ;;
  let commits := splitlines log in
  ret commits.

(** ["\n".join(...)] over the commits, each after a bullet and a space. *)
Definition bullet_list (commits : list str) : str :=
  join [LF] (List.map (fun msg => BULLET :: SPACE :: msg) commits).

Definition prompt_of (commit_list current_version : str) : str :=
  lit "Here are the commit messages for version " ++ current_version
  ++ lit ":" ++ [LF; LF] ++ commit_list ++ [LF; LF]
  ++ lit "Create a clear, well-organized " ++ [QUOTE] ++ lit "What's New"
  ++ [QUOTE]
  ++ lit " summary in plain text format (no markdown). Group related changes together and make it user-friendly. Focus on important changes and improvements. Remove technical jargon and internal references. Use bullet points with "
  ++ [BULLET]
  ++ lit " character. Keep the tone professional but approachable.".

Definition request_of (prompt : str) : Request :=
  {| model := lit "claude-3-haiku-20240307";
     max_tokens := 1000;
     temperature_tenths := 7;
     system := lit "You are a technical writer creating clear and concise release notes in plain text format.";
     messages := [(lit "user", prompt)] |}.

(** The body of the [try] of [format_whats_new_with_claude]. *)
Definition ask_service (w : World) (commits : list str)
  (current_version : str) : M str :=
  _ <- perform ClientInit (Anthropic w) ;;
  let commit_list := bullet_list commits in
  let prompt := prompt_of commit_list current_version in
  let req := request_of prompt in
  message <- perform (ServiceCall req) (messages_create w req) ;;
  match content message with
  | [] => raise IndexError None
  | TextBlock text :: _ => ret text
  | OtherBlock :: _ => raise AttributeError None
  end.

Definition fallback_summary (commits : list str) : str :=
  lit "What's New:" ++ [LF; LF] ++ bullet_list commits.

(** format_whats_new_with_claude(commits, current_version) *)
Definition format_whats_new_with_claude (w : World) (commits : list str)
  (current_version : str) : M str :=
  match commits with
  | [] => ret (lit "No changes found.")
  | _ :: _ =>
      try_except_Exception
        (ask_service w commits current_version)
        (fun _ => ret (fallback_summary commits))
  end.

(** The two positional arguments, as [parse_args] returns them. *)
Record Args := mk_args { repo_path : str; version : str }.

Definition print (w : World) (s : str) : M unit :=
  perform (Printed s) (sys_stdout_write w s).

(** main(), from the parsed arguments on.  [not prev_version] holds of
    [None] and of the empty string. *)
Definition main (w : World) (args : Args) : M unit :=
  repo <- (os_path_abspath w (repo_path args), []) ;;
  let current_version := version args in
  all_versions <- get_all_semver_tags w repo ;;
  if negb (list_contains current_version all_versions)
  then raise ValueError
         (Some (lit "Version " ++ current_version ++ lit " not found in tags."))
  else
    prev_version <- find_previous_version all_versions current_version ;;
    match prev_version with
    | None | Some [] =>
        raise ValueError (Some (lit "No previous version found."))
    | Some prev =>
        commits <- get_commits_between_versions w repo prev current_version ;;
        summary <- format_whats_new_with_claude w commits current_version ;;
        print w summary
    end.

(** ** Vocabulary of the properties *)

(** The last element of a list, when there is one. *)
Definition last_opt {A} (l : list A) : option A :=
  match rev l with
  | [] => None
  | x :: _ => Some x
  end.

(** Ways the text-generation call can fail inside the [try]: the client
    cannot be constructed, the call raises, the reply has no block, or its
    first block carries no text. *)
Inductive service_fails (w : World) (req : Request) : Prop :=
| client_error e :
    Anthropic w = Raise e -> isinstance_Exception e = true ->
    service_fails w req
| call_error e :
    Anthropic w = Ok tt -> messages_create w req = Raise e ->
    isinstance_Exception e = true -> service_fails w req
| empty_reply m :
    Anthropic w = Ok tt -> messages_create w req = Ok m ->
    content m = [] -> service_fails w req
| textless_reply m rest :
    Anthropic w = Ok tt -> messages_create w req = Ok m ->
    content m = OtherBlock :: rest -> service_fails w req.


Definition no_linebreak (s : str) : bool :=
  forallb (fun c => negb (islinebreak c)) s.

(** A string that begins with a character that is not whitespace. *)
Definition starts_with_text (s : str) : Prop :=
  match s with
  | c :: _ => isspace c = false
  | [] => False
  end.

Definition ends_with_text (s : str) : Prop := starts_with_text (rev s).

(** Following the words of the specification of the Commit Range Reader:
    one entry per subject line of the output, in order and verbatim.  With
    [--pretty=format:%s] the tool separates the subjects by newlines and
    prints nothing for an empty range. *)
Definition spec_subject_lines (out : str) : list str :=
  match out with
  | [] => []
  | _ => Py.split LF out
  end.







(** A run of one or more decimal digits, and three of them separated by
    dots. *)
Definition digit_run (d : str) : Prop :=
  d <> [] /\ forallb isdecimal d = true.

Definition version_shape (g : str) : Prop :=
  exists d1 d2 d3,
    digit_run d1 /\ digit_run d2 /\ digit_run d3 /\
    g = d1 ++ [DOT] ++ d2 ++ [DOT] ++ d3.

(** The next character, if any, is not a decimal digit. *)
Definition digits_end (r : str) : Prop :=
  match r with
  | [] => True
  | c :: _ => isdecimal c = false
  end.


(** The command lines the program runs. *)
Definition tag_argv (repo : str) : list str :=
  [lit "git"; lit "-C"; repo; lit "tag"].

Definition log_argv (repo from_version to_version : str) : list str :=
  [lit "git"; lit "-C"; repo; lit "log";
   from_version ++ lit ".." ++ to_version; lit "--pretty=format:%s"].

(** ** Sample worlds *)

(** A world in which [git tag] and [git log] are answered by two fixed
    results, paths are already absolute and standard output accepts
    everything. *)
Definition scripted_world (tags log : result CompletedProcess)
  (client : result unit) (reply : result Message) : World :=
  {| subprocess_run := fun argv =>
       match nth_error argv 3 with
       | Some sub => if str_eqb sub (lit "tag") then tags else log
       | None => log
       end;
     os_path_abspath := fun p => Ok p;
     Anthropic := client;
     messages_create := fun _ => reply;
     sys_stdout_write := fun _ => Ok tt |}.

Definition exited (code : Z) (out err : str) : result CompletedProcess :=
  Ok (mk_process code out err).

Definition connection_error : exn :=
  mk_exn (Foreign "APIConnectionError" true) None.

Definition keyboard_interrupt : exn :=
  mk_exn (Foreign "KeyboardInterrupt" false) None.

(** Tags 1.0.0 and 1.1.0, two commits in between, the service
    unreachable. *)
Definition offline_world : World :=
  scripted_world
    (exited 0 (lit "1.0.0" ++ [LF] ++ lit "1.1.0" ++ [LF]) [])
    (exited 0 (lit "Fix bug" ++ [LF] ++ lit "Add feature") [])
    (Ok tt) (Raise connection_error).

(** The same history tagged v1.0.0 and v1.1.0. *)
Definition v_tagged_world : World :=
  scripted_world
    (exited 0 (lit "v1.0.0" ++ [LF] ++ lit "v1.1.0" ++ [LF]) [])
    (exited 0 (lit "Fix bug" ++ [LF] ++ lit "Add feature") [])
    (Ok tt) (Raise connection_error).

(** The first subject of the log begins with two spaces. *)
Definition indented_world : World :=
  scripted_world
    (exited 0 (lit "1.0.0" ++ [LF] ++ lit "1.1.0" ++ [LF]) [])
    (exited 0 (lit "  Fix bug" ++ [LF] ++ lit "Add feature") [])
    (Ok tt) (Raise connection_error).

(** git fails. *)
Definition broken_world : World :=
  scripted_world
    (exited 128 [] (lit "fatal: not a git repository"))
    (exited 128 [] (lit "fatal: not a git repository"))
    (Ok tt) (Raise connection_error).

(** Tags in an order git would not sort numerically, with entries that are
    not versions. *)
Definition mixed_tags_world : World :=
  scripted_world
    (exited 0 (lit "10.0.0" ++ [LF] ++ lit "1.2" ++ [LF] ++ lit "9.9.9"
               ++ [LF] ++ lit "release-1" ++ [LF] ++ lit "v1.2.3" ++ [LF]) [])
    (exited 0 [] [])
    (Ok tt) (Raise connection_error).

(** ARABIC-INDIC DIGIT ONE, TWO and THREE (U+0661 to U+0663). *)
Definition arabic_1_2_3 : str := [1633; 46; 1634; 46; 1635]%N.

(** A repository with the tags 1.2.3 and [arabic_1_2_3]. *)
Definition arabic_tag_world : World :=
  scripted_world
    (exited 0 (lit "1.2.3" ++ [LF] ++ arabic_1_2_3 ++ [LF]) [])
    (exited 0 [] [])
    (Ok tt) (Raise connection_error).

Definition three_versions : list str :=
  [lit "1.0.0"; lit "1.1.0"; lit "2.0.0"].

(** The service answers with one text block. *)
Definition online_world : World :=
  scripted_world
    (exited 0 (lit "1.0.0" ++ [LF] ++ lit "1.1.0" ++ [LF]) [])
    (exited 0 (lit "Fix bug" ++ [LF] ++ lit "Add feature") [])
    (Ok tt)
    (Ok (mk_message [TextBlock (lit "Bug fixes and a new feature.")])).

(** The two tags point at the same commit: the log is empty. *)
Definition empty_range_world : World :=
  scripted_world
    (exited 0 (lit "1.0.0" ++ [LF] ++ lit "1.1.0" ++ [LF]) [])
    (exited 0 [] [])
    (Ok tt) (Raise connection_error).

(** The user interrupts while the client is being constructed. *)
Definition interrupted_world : World :=
  scripted_world
    (exited 0 (lit "1.0.0" ++ [LF] ++ lit "1.1.0" ++ [LF]) [])
    (exited 0 (lit "Fix bug" ++ [LF] ++ lit "Add feature") [])
    (Raise keyboard_interrupt) (Raise connection_error).

(** Tags v1.0.0 and v1.1.0, and a git that does not know the revisions
    1.0.0 and 1.1.0. *)
Definition unknown_revision_world : World :=
  scripted_world
    (exited 0 (lit "v1.0.0" ++ [LF] ++ lit "v1.1.0" ++ [LF]) [])
    (exited 128 [] (lit "fatal: bad revision"))
    (Ok tt) (Raise connection_error).


(** ** Proof steps *)


(** * Properties *)

(** ** Strings and lists *)

Lemma str_eqb_eq (a b : str) : str_eqb a b = true <-> a = b.
Proof.
  revert b; induction a as [|x a IH]; intros [|y b]; simpl;
    try (split; [discriminate | congruence]); try tauto.
  rewrite andb_true_iff, N.eqb_eq, IH.
  split; [intros [-> ->]; reflexivity | intros E; inversion E; auto].
Qed.

Lemma str_eqb_refl (a : str) : str_eqb a a = true.
Proof. apply str_eqb_eq; reflexivity. Qed.

Lemma str_eqb_neq (a b : str) : str_eqb a b = false <-> a <> b.
Proof.
  rewrite <- str_eqb_eq. destruct (str_eqb a b); split; congruence.
Qed.

Lemma list_contains_In (x : str) (l : list str) :
  list_contains x l = true <-> In x l.
Proof.
  unfold list_contains. rewrite existsb_exists. split.
  - intros [y [Hy E]]. apply str_eqb_eq in E. subst; assumption.
  - intros H. exists x. split; [assumption | apply str_eqb_refl].
Qed.

Lemma list_index_absent (x : str) (l : list str) :
  ~ In x l -> list_index x l = None.
Proof.
  induction l as [|y l IH]; simpl; intros H; [reflexivity|].
  destruct (str_eqb y x) eqn:E.
  - apply str_eqb_eq in E. tauto.
  - rewrite IH; tauto.
Qed.

Lemma list_index_first (x : str) (pre post : list str) :
  ~ In x pre -> list_index x (pre ++ x :: post) = Some (List.length pre).
Proof.
  induction pre as [|y pre IH]; simpl; intros H.
  - rewrite str_eqb_refl; reflexivity.
  - destruct (str_eqb y x) eqn:E.
    + apply str_eqb_eq in E. tauto.
    + rewrite IH; tauto.
Qed.

(** Every list that has [x] splits at the first [x]. *)
Lemma In_first_split (x : str) (l : list str) :
  In x l -> exists pre post, l = pre ++ x :: post /\ ~ In x pre.
Proof.
  induction l as [|y l IH]; simpl; [tauto|]. intros H.
  destruct (str_eqb y x) eqn:E.
  - apply str_eqb_eq in E. subst. exists [], l. simpl; tauto.
  - apply str_eqb_neq in E. destruct H as [H|H]; [congruence|].
    destruct (IH H) as [pre [post [-> Hn]]].
    exists (y :: pre), post. simpl. split; [reflexivity|]. tauto.
Qed.

Lemma last_opt_snoc {A} (l : list A) (x : A) : last_opt (l ++ [x]) = Some x.
Proof. unfold last_opt. rewrite rev_app_distr. reflexivity. Qed.

(** ** Version Locator *)

Lemma find_previous_version_first (target : str) (post : list str) :
  find_previous_version (target :: post) target = ret None.
Proof.
  unfold find_previous_version. simpl. rewrite str_eqb_refl. reflexivity.
Qed.

Lemma find_previous_version_after (pre post : list str) (p target : str) :
  ~ In target (pre ++ [p]) ->
  find_previous_version (pre ++ p :: target :: post) target = ret (Some p).
Proof.
  intros H. unfold find_previous_version.
  replace (pre ++ p :: target :: post) with ((pre ++ [p]) ++ target :: post)
    by (rewrite <- app_assoc; reflexivity).
  rewrite (list_index_first _ _ _ H), length_app. simpl List.length.
  replace (Nat.ltb 0 (List.length pre + 1)) with true
    by (symmetry; apply Nat.ltb_lt; lia).
  replace (List.length pre + 1 - 1)%nat with (List.length pre) by lia.
  rewrite <- app_assoc. simpl.
  rewrite nth_error_app2 by lia. rewrite Nat.sub_diag. reflexivity.
Qed.

(** C4. On a version list that contains the target, the locator answers
    absent when the target is the first element, and otherwise the element
    that stands immediately before the target. *)
Theorem find_previous_version_spec (all_versions : list str) (target : str) :
  In target all_versions ->
  (hd_error all_versions = Some target /\
   value (find_previous_version all_versions target) = Ok None)
  \/
  (hd_error all_versions <> Some target /\
   exists pre p post,
     all_versions = pre ++ p :: target :: post /\
     ~ In target (pre ++ [p]) /\
     value (find_previous_version all_versions target) = Ok (Some p)).
Proof.
  intros Hin.
  destruct (In_first_split _ _ Hin) as [pre [post [-> Hpre]]].
  destruct pre as [|q pre'] using rev_ind.
  - left. simpl. rewrite find_previous_version_first. auto.
  - right. clear IHpre'. split.
    + intros Hhd. apply Hpre.
      destruct pre'; simpl in Hhd; inversion Hhd; subst; simpl; auto.
    + exists pre', q, post. rewrite <- app_assoc. simpl.
      split; [reflexivity|]. split; [assumption|].
      rewrite find_previous_version_after by assumption. reflexivity.
Qed.

Lemma find_previous_version_spec_witness :
  In (lit "1.1.0") three_versions /\
  ((hd_error three_versions = Some (lit "1.1.0") /\
    value (find_previous_version three_versions (lit "1.1.0")) = Ok None)
   \/
   (hd_error three_versions <> Some (lit "1.1.0") /\
    exists pre p post,
      three_versions = pre ++ p :: lit "1.1.0" :: post /\
      ~ In (lit "1.1.0") (pre ++ [p]) /\
      value (find_previous_version three_versions (lit "1.1.0"))
        = Ok (Some p))).
Proof.
  assert (Hin : In (lit "1.1.0") three_versions) by (right; left; reflexivity).
  split; [exact Hin|].
  exact (find_previous_version_spec three_versions (lit "1.1.0") Hin).
Defined.

Example find_previous_version_middle :
  value (find_previous_version three_versions (lit "1.1.0"))
    = Ok (Some (lit "1.0.0")).
Proof. reflexivity. Qed.

Example find_previous_version_earliest :
  value (find_previous_version three_versions (lit "1.0.0")) = Ok None.
Proof. reflexivity. Qed.

(** C9. A target that is not in the list makes the lookup raise ValueError;
    the locator does not answer absent. *)
Theorem find_previous_version_absent (all_versions : list str) (target : str) :
  ~ In target all_versions ->
  value (find_previous_version all_versions target)
    = Raise (mk_exn ValueError None) /\
  value (find_previous_version all_versions target) <> Ok None.
Proof.
  intros H. unfold find_previous_version.
  rewrite (list_index_absent _ _ H). simpl. split; [reflexivity | discriminate].
Qed.

Lemma find_previous_version_absent_witness :
  ~ In (lit "3.0.0") three_versions /\
  value (find_previous_version three_versions (lit "3.0.0"))
    = Raise (mk_exn ValueError None).
Proof.
  assert (H : ~ In (lit "3.0.0") three_versions).
  { intros [E | [E | [E | []]]]; discriminate E. }
  split; [exact H|].
  exact (proj1 (find_previous_version_absent three_versions (lit "3.0.0") H)).
Defined.

(** C10. When the target occurs more than once, the locator works from its
    first occurrence: it answers the element just before it, or absent when
    the first occurrence opens the list. *)
Theorem find_previous_version_duplicates
  (pre between post : list str) (target : str) :
  ~ In target pre ->
  value (find_previous_version
           (pre ++ target :: between ++ target :: post) target)
    = Ok (last_opt pre).
Proof.
  intros H. destruct pre as [|q pre'] using rev_ind.
  - simpl. rewrite find_previous_version_first. reflexivity.
  - rewrite <- app_assoc. simpl.
    rewrite find_previous_version_after by assumption.
    rewrite last_opt_snoc. reflexivity.
Qed.

Lemma find_previous_version_duplicates_witness :
  ~ In (lit "1.0.0") [lit "0.9.0"] /\
  value (find_previous_version
           ([lit "0.9.0"] ++ lit "1.0.0" :: [] ++ lit "1.0.0" :: [lit "2.0.0"])
           (lit "1.0.0"))
    = Ok (Some (lit "0.9.0")).
Proof.
  assert (H : ~ In (lit "1.0.0") [lit "0.9.0"]).
  { intros [E | []]; discriminate E. }
  split; [exact H|].
  exact (find_previous_version_duplicates
           [lit "0.9.0"] [] [lit "2.0.0"] (lit "1.0.0") H).
Defined.

(** ** Command Runner *)

Lemma run_git_command_unfold (w : World) (repo : str) (args : list str) :
  run_git_command w repo args =
  match subprocess_run w ([lit "git"; lit "-C"; repo] ++ args) with
  | Ok cp =>
      (if negb (Z.eqb (returncode cp) 0)
       then Raise (mk_exn Exception_ (Some (lit "Git error: " ++ stderr cp)))
       else Ok (strip (stdout cp)),
       [Spawn ([lit "git"; lit "-C"; repo] ++ args)])
  | Raise e => (Raise e, [Spawn ([lit "git"; lit "-C"; repo] ++ args)])
  end.
Proof.
  unfold run_git_command, bind, perform.
  destruct (subprocess_run w _) as [cp|e]; [|reflexivity].
  destruct (Z.eqb (returncode cp) 0); reflexivity.
Qed.

Lemma run_git_command_exit_zero (w : World) (repo : str) (args : list str)
  (cp : CompletedProcess) :
  subprocess_run w ([lit "git"; lit "-C"; repo] ++ args) = Ok cp ->
  returncode cp = 0%Z ->
  value (run_git_command w repo args) = Ok (strip (stdout cp)).
Proof.
  intros H E. rewrite run_git_command_unfold, H, E. reflexivity.
Qed.

(** C5, as the code has it.  When the subprocess exits with status zero the
    runner returns its standard output with the whitespace trimmed at both
    ends; when it exits with another status the runner raises an error that
    carries the standard-error text; either way one process was run. *)
Theorem run_git_command_spec (w : World) (repo : str) (args : list str)
  (cp : CompletedProcess) :
  subprocess_run w ([lit "git"; lit "-C"; repo] ++ args) = Ok cp ->
  (returncode cp = 0%Z ->
   value (run_git_command w repo args) = Ok (strip (stdout cp))) /\
  (returncode cp <> 0%Z ->
   value (run_git_command w repo args)
     = Raise (mk_exn Exception_ (Some (lit "Git error: " ++ stderr cp)))) /\
  trace (run_git_command w repo args)
    = [Spawn ([lit "git"; lit "-C"; repo] ++ args)].
Proof.
  intros H. rewrite run_git_command_unfold, H.
  destruct (Z.eqb_spec (returncode cp) 0) as [E|E]; simpl.
  - repeat split; intros; congruence.
  - repeat split; intros; congruence.
Qed.

Lemma run_git_command_spec_witness :
  subprocess_run broken_world ([lit "git"; lit "-C"; lit "/repo"] ++ [lit "tag"])
    = Ok (mk_process 128 [] (lit "fatal: not a git repository")) /\
  value (run_git_command broken_world (lit "/repo") [lit "tag"])
    = Raise (mk_exn Exception_
               (Some (lit "Git error: fatal: not a git repository"))).
Proof.
  split; [reflexivity|].
  refine (proj1 (proj2 (run_git_command_spec broken_world (lit "/repo")
                          [lit "tag"] _ eq_refl)) _).
  simpl. discriminate.
Defined.

(** Trimming only the end of the output is not what the runner does: the
    log of [indented_world] begins with two spaces, and they are gone. *)
Lemma run_git_command_trims_both_ends :
  exists cp,
    subprocess_run indented_world
      ([lit "git"; lit "-C"; lit "/repo"] ++ [lit "log"]) = Ok cp /\
    returncode cp = 0%Z /\
    rstrip (stdout cp) = lit "  Fix bug" ++ [LF] ++ lit "Add feature" /\
    value (run_git_command indented_world (lit "/repo") [lit "log"])
      = Ok (lit "Fix bug" ++ [LF] ++ lit "Add feature") /\
    value (run_git_command indented_world (lit "/repo") [lit "log"])
      <> Ok (rstrip (stdout cp)).
Proof.
  eexists. split; [reflexivity|].
  split; [reflexivity|]. split; [reflexivity|]. split; [reflexivity|].
  vm_compute. discriminate.
Qed.

(** ** Summary Formatter *)

Lemma ask_service_fails (w : World) (commits : list str) (v : str) :
  service_fails w (request_of (prompt_of (bullet_list commits) v)) ->
  exists e t,
    ask_service w commits v = (Raise e, t) /\ isinstance_Exception e = true.
Proof.
  intros H. unfold ask_service, bind, perform.
  destruct H as [e Hc He | e Hc Hm He | m Hc Hm Hn | m rest Hc Hm Hn].
  - rewrite Hc. eauto.
  - rewrite Hc, Hm. simpl. eauto.
  - rewrite Hc, Hm, Hn. simpl. eexists _, _. split; reflexivity.
  - rewrite Hc, Hm, Hn. simpl. eexists _, _. split; reflexivity.
Qed.

(** C1. For a commit list that is not empty, whenever the text-generation
    call fails (the client cannot be constructed, the call raises, or the
    reply is empty or carries no text), the formatter returns the heading
    "What's New:", a blank line, and one line per commit made of the bullet,
    a space and the message; it does not raise. *)
Theorem format_falls_back (w : World) (commits : list str) (v : str) :
  commits <> [] ->
  service_fails w (request_of (prompt_of (bullet_list commits) v)) ->
  value (format_whats_new_with_claude w commits v)
    = Ok (lit "What's New:" ++ [LF; LF]
          ++ join [LF] (List.map (fun msg => BULLET :: SPACE :: msg) commits)).
Proof.
  intros Hne Hf. destruct commits as [|c cs]; [congruence|].
  unfold format_whats_new_with_claude, try_except_Exception.
  destruct (ask_service_fails w (c :: cs) v Hf) as [e [t [-> He]]].
  rewrite He. reflexivity.
Qed.

Lemma format_falls_back_witness :
  [lit "Fix bug"; lit "Add feature"] <> [] /\
  value (format_whats_new_with_claude offline_world
           [lit "Fix bug"; lit "Add feature"] (lit "1.0.0"))
    = Ok (lit "What's New:" ++ [LF; LF]
          ++ [BULLET] ++ lit " Fix bug" ++ [LF]
          ++ [BULLET] ++ lit " Add feature").
Proof.
  assert (Hne : [lit "Fix bug"; lit "Add feature"] <> ([] : list str))
    by discriminate.
  split; [exact Hne|].
  refine (format_falls_back offline_world _ (lit "1.0.0") Hne _).
  apply call_error with (e := connection_error); reflexivity.
Defined.

(** C7. With no commits the formatter returns the fixed message and causes
    no event: neither the client nor the service is touched. *)
Theorem format_no_changes (w : World) (v : str) :
  value (format_whats_new_with_claude w [] v) = Ok (lit "No changes found.") /\
  trace (format_whats_new_with_claude w [] v) = [].
Proof. split; reflexivity. Qed.

(** When the service answers with a text block first, its text is the
    summary. *)
Lemma format_returns_service_text (w : World) (c : str) (cs : list str)
  (v text : str) (rest : list ContentBlock) :
  Anthropic w = Ok tt ->
  messages_create w (request_of (prompt_of (bullet_list (c :: cs)) v))
    = Ok (mk_message (TextBlock text :: rest)) ->
  value (format_whats_new_with_claude w (c :: cs) v) = Ok text.
Proof.
  intros Hc Hm.
  unfold format_whats_new_with_claude, try_except_Exception, ask_service,
    bind, perform.
  rewrite Hc, Hm. reflexivity.
Qed.

(** An error outside [Exception], such as an interrupt, is not caught. *)
Lemma format_lets_interrupts_through (w : World) (c : str) (cs : list str)
  (v : str) (e : exn) :
  Anthropic w = Raise e -> isinstance_Exception e = false ->
  value (format_whats_new_with_claude w (c :: cs) v) = Raise e.
Proof.
  intros Hc He.
  unfold format_whats_new_with_claude, try_except_Exception, ask_service,
    bind, perform.
  rewrite Hc, He. reflexivity.
Qed.


(** ** Lines *)

Lemma lstrip_text (s : str) : starts_with_text s -> lstrip s = s.
Proof. destruct s as [|c s]; simpl; [tauto|]. intros ->. reflexivity. Qed.

Lemma strip_text (s : str) :
  starts_with_text s -> ends_with_text s -> strip s = s.
Proof.
  intros Hs He. unfold strip, rstrip.
  rewrite (lstrip_text s Hs), (lstrip_text (rev s) He). apply rev_involutive.
Qed.

Lemma starts_with_text_app (s t : str) :
  starts_with_text s -> starts_with_text (s ++ t).
Proof. destruct s; simpl; tauto. Qed.

Lemma last_opt_cons {A} (x y : A) (l : list A) :
  last_opt (x :: y :: l) = last_opt (y :: l).
Proof.
  unfold last_opt. simpl. destruct (rev l) as [|z r]; reflexivity.
Qed.

Lemma join_cons2 (sep p q : str) (l : list str) :
  join sep (p :: q :: l) = p ++ sep ++ join sep (q :: l).
Proof. reflexivity. Qed.

Lemma join_starts_with_text (subjects : list str) :
  (forall s, hd_error subjects = Some s -> starts_with_text s) ->
  subjects <> [] -> starts_with_text (join [LF] subjects).
Proof.
  destruct subjects as [|p [|q l]]; intros H Hne; [congruence| |].
  - apply H; reflexivity.
  - rewrite join_cons2. apply starts_with_text_app, H. reflexivity.
Qed.

Lemma join_ends_with_text (subjects : list str) :
  (forall s, last_opt subjects = Some s -> ends_with_text s) ->
  subjects <> [] -> ends_with_text (join [LF] subjects).
Proof.
  induction subjects as [|p l IH]; intros H Hne; [congruence|].
  destruct l as [|q l].
  - apply H; reflexivity.
  - rewrite join_cons2. unfold ends_with_text.
    rewrite !rev_app_distr. do 2 apply starts_with_text_app.
    apply IH; [|discriminate].
    intros s Hs. apply H. rewrite last_opt_cons. exact Hs.
Qed.

Lemma splitlines_from_text (s cur rest : str) :
  no_linebreak s = true ->
  splitlines_from cur (s ++ rest) = splitlines_from (rev s ++ cur) rest.
Proof.
  revert cur. induction s as [|c s IH]; intros cur H; [reflexivity|].
  simpl in H. apply andb_true_iff in H. destruct H as [Hc Hs].
  apply negb_true_iff in Hc. simpl. rewrite Hc, IH by assumption.
  rewrite <- app_assoc. reflexivity.
Qed.

Lemma splitlines_after_LF (cur rest : str) :
  splitlines_from cur (LF :: rest) = rev cur :: splitlines_from [] rest.
Proof. destruct rest; reflexivity. Qed.

(** Lines that hold no line boundary, joined by newlines, split back into
    themselves, as long as the last one is not empty. *)
Lemma splitlines_join (subjects : list str) :
  Forall (fun s => no_linebreak s = true) subjects ->
  last_opt subjects <> Some [] ->
  splitlines (join [LF] subjects) = subjects.
Proof.
  unfold splitlines.
  induction subjects as [|p l IH]; intros Hnb Hlast; [reflexivity|].
  inversion Hnb as [|? ? Hp Hl]; subst.
  destruct l as [|q l].
  - simpl. rewrite <- (app_nil_r p) at 1.
    rewrite splitlines_from_text by assumption. rewrite app_nil_r. simpl.
    destruct (rev p) eqn:E.
    + exfalso. apply Hlast. unfold last_opt. simpl.
      assert (p = []) as ->
          by (rewrite <- (rev_involutive p), E; reflexivity).
      reflexivity.
    + rewrite <- E, rev_involutive. reflexivity.
  - rewrite join_cons2. rewrite splitlines_from_text by assumption.
    simpl app at 1. rewrite app_nil_r. cbn [app].
    rewrite splitlines_after_LF, rev_involutive.
    f_equal. apply IH; [assumption|]. rewrite <- last_opt_cons with (x := p).
    exact Hlast.
Qed.

(** What [splitlines] returns holds no line boundary. *)
Lemma splitlines_from_no_linebreak (s cur : str) :
  no_linebreak cur = true ->
  Forall (fun l => no_linebreak l = true) (splitlines_from cur s).
Proof.
  assert (Hrev : forall t, no_linebreak t = true -> no_linebreak (rev t) = true).
  { intros t Ht. unfold no_linebreak in *. rewrite forallb_forall in *.
    intros x Hx. apply Ht. apply in_rev. exact Hx. }
  revert cur.
  induction s as [s IH] using (well_founded_induction
    (Wf_nat.well_founded_ltof _ (@List.length char))).
  intros cur Hcur. destruct s as [|c rest]; simpl.
  - destruct cur; constructor; [|constructor].
    rewrite <- (Hrev _ Hcur). reflexivity.
  - destruct (islinebreak c) eqn:Ec.
    + constructor; [apply Hrev; assumption|].
      destruct rest as [|c' rest'].
      * simpl. constructor.
      * destruct (N.eqb c CR && N.eqb c' LF)%bool;
          apply IH; try reflexivity; unfold Wf_nat.ltof; simpl; lia.
    + apply IH; [unfold Wf_nat.ltof; simpl; lia|].
      simpl. rewrite Ec. exact Hcur.
Qed.

Lemma splitlines_no_linebreak (s : str) :
  Forall (fun l => no_linebreak l = true) (splitlines s).
Proof. apply splitlines_from_no_linebreak. reflexivity. Qed.

(** ** Commit Range Reader *)

Lemma get_commits_unfold (w : World) (repo from_v to_v : str) :
  value (get_commits_between_versions w repo from_v to_v) =
  match value (run_git_command w repo
                 [lit "log"; from_v ++ lit ".." ++ to_v;
                  lit "--pretty=format:%s"]) with
  | Ok log => Ok (splitlines log)
  | Raise e => Raise e
  end.
Proof.
  unfold get_commits_between_versions, bind, value.
  destruct (run_git_command w repo _) as [[log|e] t]; reflexivity.
Qed.

Lemma get_commits_exit_zero (w : World) (repo from_v to_v : str)
  (cp : CompletedProcess) :
  subprocess_run w (log_argv repo from_v to_v) = Ok cp ->
  returncode cp = 0%Z ->
  value (get_commits_between_versions w repo from_v to_v)
    = Ok (splitlines (strip (stdout cp))).
Proof.
  intros Hrun Hrc. rewrite get_commits_unfold.
  rewrite (run_git_command_exit_zero w repo _ cp Hrun Hrc). reflexivity.
Qed.

(** C6, as the code has it.  When the log command exits with status zero the
    reader returns the lines of its output after the whitespace at both ends
    of the output is trimmed.  An empty output gives the empty list.  When
    the output is a sequence of subjects separated by newlines, none of them
    holding a line boundary, the first beginning and the last ending with a
    character that is not whitespace, the reader returns exactly these
    subjects in their order. *)
Theorem get_commits_between_versions_spec (w : World)
  (repo from_v to_v : str) (cp : CompletedProcess) :
  subprocess_run w (log_argv repo from_v to_v) = Ok cp ->
  returncode cp = 0%Z ->
  value (get_commits_between_versions w repo from_v to_v)
    = Ok (splitlines (strip (stdout cp))) /\
  (stdout cp = [] ->
   value (get_commits_between_versions w repo from_v to_v) = Ok []) /\
  (forall subjects,
     stdout cp = join [LF] subjects ->
     Forall (fun s => no_linebreak s = true) subjects ->
     (forall s, hd_error subjects = Some s -> starts_with_text s) ->
     (forall s, last_opt subjects = Some s -> ends_with_text s) ->
     value (get_commits_between_versions w repo from_v to_v) = Ok subjects).
Proof.
  intros Hrun Hrc.
  assert (E : value (get_commits_between_versions w repo from_v to_v)
              = Ok (splitlines (strip (stdout cp)))).
  { apply get_commits_exit_zero; assumption. }
  split; [exact E|]. split.
  - intros Hout. rewrite E, Hout. reflexivity.
  - intros subjects Hout Hnb Hfirst Hlast. rewrite E, Hout.
    destruct subjects as [|p l] eqn:Es; [reflexivity|]. rewrite <- Es in *.
    assert (Hne : subjects <> []) by (rewrite Es; discriminate).
    rewrite strip_text.
    + rewrite splitlines_join; [reflexivity | assumption |].
      intros Hempty. apply (Hlast _ Hempty).
    + apply join_starts_with_text; assumption.
    + apply join_ends_with_text; assumption.
Qed.

Lemma get_commits_between_versions_spec_witness :
  subprocess_run offline_world (log_argv (lit "/repo") (lit "1.0.0") (lit "1.1.0"))
    = Ok (mk_process 0 (join [LF] [lit "Fix bug"; lit "Add feature"]) []) /\
  value (get_commits_between_versions offline_world
           (lit "/repo") (lit "1.0.0") (lit "1.1.0"))
    = Ok [lit "Fix bug"; lit "Add feature"].
Proof.
  split; [reflexivity|].
  refine (proj2 (proj2 (get_commits_between_versions_spec offline_world
                          (lit "/repo") (lit "1.0.0") (lit "1.1.0")
                          (mk_process 0 _ []) eq_refl eq_refl))
            [lit "Fix bug"; lit "Add feature"] eq_refl _ _ _).
  - repeat constructor.
  - intros s E. inversion E. reflexivity.
  - intros s E. inversion E. reflexivity.
Defined.

(** The subjects are not always returned verbatim: the log of
    [indented_world] has the subjects "  Fix bug" and "Add feature", and the
    reader returns "Fix bug" for the first. *)
Lemma get_commits_between_versions_not_verbatim :
  exists cp,
    subprocess_run indented_world
      (log_argv (lit "/repo") (lit "1.0.0") (lit "1.1.0")) = Ok cp /\
    returncode cp = 0%Z /\
    spec_subject_lines (stdout cp) = [lit "  Fix bug"; lit "Add feature"] /\
    value (get_commits_between_versions indented_world
             (lit "/repo") (lit "1.0.0") (lit "1.1.0"))
      = Ok [lit "Fix bug"; lit "Add feature"] /\
    value (get_commits_between_versions indented_world
             (lit "/repo") (lit "1.0.0") (lit "1.1.0"))
      <> Ok (spec_subject_lines (stdout cp)).
Proof.
  eexists. split; [reflexivity|].
  split; [reflexivity|]. split; [reflexivity|]. split; [reflexivity|].
  vm_compute. discriminate.
Qed.

(** ** The tag pattern *)

Lemma plus_digit_run (s : str) : Re.matches (Re.Plus Re.Digit) s <-> digit_run s.
Proof.
  split.
  - intros H. remember (Re.Plus Re.Digit) as r eqn:Er.
    induction H as [ | | | | | r s H _ | r s1 s2 H1 _ H2 IH2 ];
      inversion Er; subst.
    + inversion H; subst. split; [discriminate|]. simpl.
      rewrite andb_true_r. assumption.
    + inversion H1; subst. destruct (IH2 eq_refl) as [_ Hd].
      split; [discriminate|]. simpl. rewrite Hd, andb_true_r. assumption.
  - intros [Hne Hd]. induction s as [|c s IH]; [congruence|].
    simpl in Hd. apply andb_true_iff in Hd. destruct Hd as [Hc Hs].
    destruct s as [|c' s'].
    + apply Re.MPlusOne, Re.MDigit. assumption.
    + change (c :: c' :: s') with ([c] ++ c' :: s').
      apply Re.MPlusMore; [apply Re.MDigit; assumption|].
      apply IH; [discriminate | assumption].
Qed.

Lemma semver_group_shape (g : str) :
  Re.matches Re.semver_group g <-> version_shape g.
Proof.
  unfold Re.semver_group, version_shape. split.
  - intros H.
    inversion H as [ | | ? ? d1 t1 H1 Ht1 | | | | ]; subst; clear H.
    inversion Ht1 as [ | | ? ? p1 t2 Hp1 Ht2 | | | | ]; subst; clear Ht1.
    inversion Hp1; subst; clear Hp1.
    inversion Ht2 as [ | | ? ? d2 t3 H2 Ht3 | | | | ]; subst; clear Ht2.
    inversion Ht3 as [ | | ? ? p2 d3 Hp2 H3 | | | | ]; subst; clear Ht3.
    inversion Hp2; subst; clear Hp2.
    exists d1, d2, d3. rewrite !plus_digit_run in *. auto.
  - intros [d1 [d2 [d3 [H1 [H2 [H3 ->]]]]]].
    rewrite <- !plus_digit_run in *.
    repeat (apply Re.MCat; try assumption; try apply Re.MChr).
Qed.

Lemma span_digits_spec (s : str) :
  s = fst (Re.span_digits s) ++ snd (Re.span_digits s) /\
  forallb isdecimal (fst (Re.span_digits s)) = true /\
  digits_end (snd (Re.span_digits s)).
Proof.
  induction s as [|c s IH]; simpl; [auto|].
  destruct (isdecimal c) eqn:Ec.
  - destruct (Re.span_digits s) as [d r]. simpl in *.
    destruct IH as [E [Hd Hr]]. rewrite Ec, Hd. rewrite <- E. auto.
  - simpl. auto.
Qed.

Lemma span_digits_run (d r : str) :
  forallb isdecimal d = true -> digits_end r ->
  Re.span_digits (d ++ r) = (d, r).
Proof.
  intros Hd Hr. induction d as [|c d IH]; simpl.
  - destruct r as [|c r]; [reflexivity|]. simpl in *. rewrite Hr. reflexivity.
  - simpl in Hd. apply andb_true_iff in Hd. destruct Hd as [Hc Hd].
    rewrite Hc, IH by assumption. reflexivity.
Qed.

Lemma digits1_run (d r : str) :
  digit_run d -> digits_end r -> Re.digits1 (d ++ r) = Some (d, r).
Proof.
  intros [Hne Hd] Hr. unfold Re.digits1.
  rewrite span_digits_run by assumption. destruct d; congruence.
Qed.

Lemma digits1_spec (s d r : str) :
  Re.digits1 s = Some (d, r) -> s = d ++ r /\ digit_run d /\ digits_end r.
Proof.
  unfold Re.digits1. intros H.
  destruct (span_digits_spec s) as [E [Hd Hr]].
  destruct (Re.span_digits s) as [d' r']. simpl in *.
  destruct d' as [|c d']; [discriminate|]. inversion H; subst.
  repeat split; auto. discriminate.
Qed.

Lemma expect_spec (c : char) (s r : str) :
  Re.expect c s = Some r <-> s = c :: r.
Proof.
  unfold Re.expect. destruct s as [|c' s]; [split; discriminate|].
  destruct (N.eqb_spec c' c) as [->|Hn]; split; intros H;
    try discriminate H; inversion H; subst; try reflexivity.
  contradiction Hn; reflexivity.
Qed.

Lemma at_dollar_spec (rest : str) :
  Re.at_dollar rest = true <-> Re.dollar rest.
Proof.
  unfold Re.at_dollar, Re.dollar.
  destruct rest as [|c [|c' r]]; split; intros H; auto; try discriminate.
  - apply N.eqb_eq in H. subst. auto.
  - destruct H as [H|H]; inversion H. reflexivity.
  - destruct H as [H|H]; discriminate.
Qed.

Lemma dollar_digits_end (rest : str) : Re.dollar rest -> digits_end rest.
Proof. intros [-> | ->]; simpl; auto. Qed.

(** The greedy matcher and the language of the group agree. *)
Lemma match_group_sound (s g : str) :
  Re.match_group s = Some g ->
  exists rest, s = g ++ rest /\ version_shape g /\ Re.dollar rest.
Proof.
  unfold Re.match_group. intros H.
  destruct (Re.digits1 s) as [[d1 r1]|] eqn:E1; [|discriminate].
  destruct (Re.expect DOT r1) as [r2|] eqn:P1; [|discriminate].
  destruct (Re.digits1 r2) as [[d2 r3]|] eqn:E2; [|discriminate].
  destruct (Re.expect DOT r3) as [r4|] eqn:P2; [|discriminate].
  destruct (Re.digits1 r4) as [[d3 r5]|] eqn:E3; [|discriminate].
  destruct (Re.at_dollar r5) eqn:D; [|discriminate].
  inversion H; subst; clear H.
  apply digits1_spec in E1, E2, E3.
  apply expect_spec in P1, P2. apply at_dollar_spec in D.
  destruct E1 as [-> [H1 _]], E2 as [-> [H2 _]], E3 as [-> [H3 _]]. subst.
  exists r5. split; [|split; [exists d1, d2, d3; auto | assumption]].
  simpl. rewrite <- !app_assoc. simpl. rewrite <- !app_assoc. reflexivity.
Qed.

Lemma match_group_complete (g rest : str) :
  version_shape g -> Re.dollar rest -> Re.match_group (g ++ rest) = Some g.
Proof.
  intros [d1 [d2 [d3 [H1 [H2 [H3 ->]]]]]] Hd. unfold Re.match_group.
  replace ((d1 ++ [DOT] ++ d2 ++ [DOT] ++ d3) ++ rest)
    with (d1 ++ DOT :: (d2 ++ DOT :: (d3 ++ rest)))
    by (simpl; rewrite <- !app_assoc; simpl; rewrite <- !app_assoc; reflexivity).
  rewrite (digits1_run d1 _ H1) by reflexivity.
  unfold Re.expect; rewrite N.eqb_refl.
  rewrite (digits1_run d2 _ H2) by reflexivity.
  unfold Re.expect; rewrite N.eqb_refl.
  rewrite (digits1_run d3 _ H3) by (apply dollar_digits_end; assumption).
  apply at_dollar_spec in Hd. rewrite Hd. reflexivity.
Qed.

Lemma version_shape_head (g : str) :
  version_shape g -> exists c g', g = c :: g' /\ isdecimal c = true.
Proof.
  intros [d1 [d2 [d3 [[Hne Hd] [_ [_ ->]]]]]].
  destruct d1 as [|c d1]; [congruence|]. simpl in Hd.
  apply andb_true_iff in Hd. destruct Hd as [Hc _].
  exists c, (d1 ++ [DOT] ++ d2 ++ [DOT] ++ d3). auto.
Qed.

(** The matcher decides the pattern: it returns [g] exactly when [re.match]
    succeeds on [tag] with [g] as its group. *)
Lemma semver_match_spec (tag g : str) :
  Re.semver_match tag = Some g <-> Re.semver_pattern_matches tag g.
Proof.
  unfold Re.semver_pattern_matches. split.
  - intros H.
    assert (Hgroup : forall s, Re.match_group s = Some g ->
              exists rest, s = g ++ rest /\ Re.matches Re.semver_group g
                           /\ Re.dollar rest).
    { intros s Hs. destruct (match_group_sound s g Hs) as [rest [E [Hv Hd]]].
      exists rest. rewrite semver_group_shape. auto. }
    unfold Re.semver_match in H. destruct tag as [|c t].
    + destruct (Hgroup _ H) as [rest [E [Hg Hd]]].
      exists [], rest. repeat split; auto. apply Re.MOptNone.
    + destruct (N.eqb_spec c LOWER_V) as [->|Hc].
      * destruct (Re.match_group t) as [g'|] eqn:Et.
        -- inversion H; subst.
           destruct (Hgroup _ Et) as [rest [E [Hg Hd]]].
           exists [LOWER_V], rest. rewrite E. repeat split; auto.
           apply Re.MOptSome, Re.MChr.
        -- destruct (Hgroup _ H) as [rest [E [Hg Hd]]].
           exists [], rest. repeat split; auto. apply Re.MOptNone.
      * destruct (Hgroup _ H) as [rest [E [Hg Hd]]].
        exists [], rest. repeat split; auto. apply Re.MOptNone.
  - intros [pre [rest [-> [Hpre [Hg Hd]]]]].
    apply semver_group_shape in Hg.
    pose proof (match_group_complete g rest Hg Hd) as Hm.
    destruct (version_shape_head g Hg) as [c [g' [Eg Hc]]].
    inversion Hpre as [ | | | | ? ? Hv | | ]; subst pre.
    + rewrite Eg in *. simpl app in *. unfold Re.semver_match.
      destruct (N.eqb_spec c LOWER_V) as [->|_]; [discriminate Hc|].
      exact Hm.
    + inversion Hv; subst. cbn -[Re.match_group] in *. rewrite Hm. reflexivity.
Qed.

(** A tag that holds no line boundary and matches is its group, or "v"
    followed by its group. *)
Lemma semver_match_line (tag g : str) :
  no_linebreak tag = true -> Re.semver_match tag = Some g ->
  version_shape g /\ (tag = g \/ tag = LOWER_V :: g).
Proof.
  intros Hnb H. apply semver_match_spec in H.
  destruct H as [pre [rest [-> [Hpre [Hg Hd]]]]].
  apply semver_group_shape in Hg. split; [assumption|].
  assert (rest = []) as ->.
  { destruct Hd as [->| ->]; [reflexivity|]. exfalso.
    unfold no_linebreak in Hnb. rewrite !forallb_app in Hnb.
    apply andb_true_iff in Hnb. destruct Hnb as [_ Hnb].
    apply andb_true_iff in Hnb. destruct Hnb as [_ Hnb]. discriminate Hnb. }
  rewrite app_nil_r.
  inversion Hpre as [ | | | | ? ? Hv | | ]; subst pre; [left; reflexivity|].
  inversion Hv; subst. right; reflexivity.
Qed.

(** ** Version keys *)





(** ** Sorting by key *)

Section SortKeyed.

Context {A K : Type} (lt : K -> K -> bool).
Hypothesis lt_asym : forall a b, lt a b = true -> lt b a = false.
Hypothesis lt_negtrans :
  forall a b c, lt b a = false -> lt c b = false -> lt c a = false.

Lemma insert_keyed_perm (x : A * K) (l : list (A * K)) :
  Permutation (x :: l) (insert_keyed lt x l).
Proof.
  induction l as [|y l IH]; simpl; [reflexivity|].
  destruct (lt (snd y) (snd x)); [|reflexivity].
  rewrite perm_swap. apply perm_skip. exact IH.
Qed.

Lemma sort_keyed_perm (l : list (A * K)) : Permutation l (sort_keyed lt l).
Proof.
  induction l as [|x l IH]; simpl; [reflexivity|].
  rewrite <- insert_keyed_perm. apply perm_skip. exact IH.
Qed.



End SortKeyed.

Lemma with_keys_spec {A K} (f : A -> result K) (l : list A)
  (kl : list (A * K)) :
  with_keys f l = Ok kl ->
  List.map fst kl = l /\ Forall (fun xk => f (fst xk) = Ok (snd xk)) kl.
Proof.
  revert kl. induction l as [|x l IH]; simpl; intros kl H.
  - inversion H; subst. split; [reflexivity | constructor].
  - destruct (f x) as [k|e] eqn:Ef; [|discriminate].
    destruct (with_keys f l) as [kl'|e]; [|discriminate].
    inversion H; subst. destruct (IH kl' eq_refl) as [E HF].
    simpl. rewrite E. split; [reflexivity|]. constructor; assumption.
Qed.


(** A sort that returns has permuted its input. *)
Lemma list_sort_perm {A K} (f : A -> result K) (lt : K -> K -> bool)
  (l out : list A) :
  list_sort f lt l = Ok out -> Permutation l out.
Proof.
  unfold list_sort. destruct (with_keys f l) as [kl|e] eqn:E; [|discriminate].
  intros H. inversion H; subst. destruct (with_keys_spec f l kl E) as [<- _].
  apply Permutation_map, sort_keyed_perm.
Qed.

(** ** Parsing versions *)







(** ** Tag Collector *)

Lemma semver_match_shape (tag g : str) :
  Re.semver_match tag = Some g -> version_shape g.
Proof.
  intros H. apply semver_match_spec in H.
  destruct H as [pre [rest [_ [_ [Hg _]]]]]. apply semver_group_shape. exact Hg.
Qed.

(** The loop keeps, in order, the group of every line that matches. *)
Lemma collect_semver_In (g : str) (raw_tags : list str) :
  In g (collect_semver raw_tags) <->
  exists tag, In tag raw_tags /\ Re.semver_pattern_matches tag g.
Proof.
  induction raw_tags as [|t l IH]; simpl.
  - split; [tauto | intros [? [[] _]]].
  - destruct (Re.semver_match t) as [g'|] eqn:E.
    + simpl. rewrite IH. split.
      * intros [<- | [tag [Hin Hm]]]; [|eauto].
        exists t. split; [auto | apply semver_match_spec; assumption].
      * intros [tag [[<- | Hin] Hm]]; [|eauto].
        apply semver_match_spec in Hm. left. congruence.
    + rewrite IH. split.
      * intros [tag [Hin Hm]]. eauto.
      * intros [tag [[<- | Hin] Hm]]; [|eauto].
        apply semver_match_spec in Hm. congruence.
Qed.

Lemma collect_semver_shape (raw_tags : list str) :
  Forall version_shape (collect_semver raw_tags).
Proof.
  induction raw_tags as [|t l IH]; simpl; [constructor|].
  destruct (Re.semver_match t) as [g|] eqn:E; [|assumption].
  constructor; [eapply semver_match_shape; eassumption | assumption].
Qed.

Lemma get_all_semver_tags_unfold (w : World) (repo : str) :
  value (get_all_semver_tags w repo) =
  match value (run_git_command w repo [lit "tag"]) with
  | Ok out =>
      list_sort Packaging.parse Packaging.version_lt
        (collect_semver (splitlines out))
  | Raise e => Raise e
  end.
Proof.
  unfold get_all_semver_tags, bind, value.
  destruct (run_git_command w repo _) as [[out|e] t]; reflexivity.
Qed.





(** 10.0.0 comes after 9.9.9, which a comparison of the strings would put
    last. *)
Example get_all_semver_tags_numeric :
  value (get_all_semver_tags mixed_tags_world (lit "/repo"))
    = Ok [lit "1.2.3"; lit "9.9.9"; lit "10.0.0"].
Proof. vm_compute. reflexivity. Qed.

(** What the collector returns is a rearrangement of the groups of the
    matching lines of the tag listing. *)
Lemma get_all_semver_tags_collects (w : World) (repo : str) (out : list str) :
  value (get_all_semver_tags w repo) = Ok out ->
  exists cp,
    subprocess_run w (tag_argv repo) = Ok cp /\
    returncode cp = 0%Z /\
    Permutation (collect_semver (splitlines (strip (stdout cp)))) out.
Proof.
  rewrite get_all_semver_tags_unfold, run_git_command_unfold.
  change ([lit "git"; lit "-C"; repo] ++ [lit "tag"]) with (tag_argv repo).
  destruct (subprocess_run w (tag_argv repo)) as [cp|e]; [|discriminate].
  unfold value. simpl fst.
  destruct (Z.eqb_spec (returncode cp) 0) as [E|E]; simpl; [|discriminate].
  intros H. exists cp. repeat split; auto.
  eapply list_sort_perm. exact H.
Qed.

(** Each kept entry is the line it comes from, without its leading "v"
    when it has one. *)
Lemma collected_entry_normalized (out g : str) :
  In g (collect_semver (splitlines out)) ->
  version_shape g /\
  exists tag, In tag (splitlines out) /\ Re.semver_pattern_matches tag g /\
              (tag = g \/ tag = LOWER_V :: g).
Proof.
  intros H. apply collect_semver_In in H. destruct H as [tag [Hin Hm]].
  pose proof (splitlines_no_linebreak out) as Hnb.
  rewrite Forall_forall in Hnb.
  destruct (semver_match_line tag g (Hnb _ Hin)) as [Hs Hv].
  { apply semver_match_spec. exact Hm. }
  split; [exact Hs|]. exists tag. auto.
Qed.

(** A line that does not match the pattern leaves nothing in the list. *)
Lemma unmatched_line_discarded (tag : str) (before after : list str) :
  (forall g, ~ Re.semver_pattern_matches tag g) ->
  collect_semver (before ++ tag :: after)
    = collect_semver (before ++ after).
Proof.
  intros H. induction before as [|t l IH]; simpl.
  - destruct (Re.semver_match tag) as [g|] eqn:E; [|reflexivity].
    apply semver_match_spec in E. destruct (H g E).
  - rewrite IH. reflexivity.
Qed.

(** No tags, no versions, no error. *)
Lemma get_all_semver_tags_empty (w : World) (repo : str)
  (cp : CompletedProcess) :
  subprocess_run w (tag_argv repo) = Ok cp ->
  returncode cp = 0%Z -> stdout cp = [] ->
  value (get_all_semver_tags w repo) = Ok [].
Proof.
  intros Hrun Hrc Hout. rewrite get_all_semver_tags_unfold.
  rewrite (run_git_command_exit_zero w repo [lit "tag"] cp Hrun Hrc), Hout.
  reflexivity.
Qed.










(** C2, where the code departs from it.  A tag written 1.2.3 with
    Arabic-Indic digits matches the pattern of the collector, since [\d]
    stands for any decimal digit; its group is then given to the version
    parser, which knows the digits 0 to 9 only, and the collector raises
    InvalidVersion instead of returning the well-formed entries. *)
Theorem get_all_semver_tags_unicode_digits :
  Re.semver_pattern_matches arabic_1_2_3 arabic_1_2_3 /\
  collect_semver (splitlines (lit "1.2.3" ++ [LF] ++ arabic_1_2_3))
    = [lit "1.2.3"; arabic_1_2_3] /\
  value (get_all_semver_tags arabic_tag_world (lit "/repo"))
    = Raise (mk_exn InvalidVersion None).
Proof.
  split; [apply semver_match_spec; reflexivity|].
  split; reflexivity.
Qed.

(** ** Entry Point *)

Lemma bind_value {A B} (m : M A) (a : A) (f : A -> M B) :
  value m = Ok a -> value (bind m f) = value (f a).
Proof.
  destruct m as [r t]. simpl. intros ->. simpl. destruct (f a); reflexivity.
Qed.

Lemma bind_trace {A B} (m : M A) (a : A) (f : A -> M B) :
  value m = Ok a -> trace (bind m f) = trace m ++ trace (f a).
Proof.
  destruct m as [r t]. simpl. intros ->. simpl. destruct (f a); reflexivity.
Qed.

Lemma last_opt_app {A} (l l' : list A) (x : A) :
  last_opt l' = Some x -> last_opt (l ++ l') = Some x.
Proof.
  unfold last_opt. rewrite rev_app_distr.
  destruct (rev l') as [|y r]; [discriminate|]. simpl. auto.
Qed.

Lemma version_shape_not_v (g rest : str) :
  version_shape g -> g <> LOWER_V :: rest.
Proof.
  intros Hs E. destruct (version_shape_head g Hs) as [c [g' [Eg Hc]]].
  rewrite Eg in E. inversion E; subst. discriminate Hc.
Qed.

(** Every version the collector returns is three runs of digits separated
    by dots; none is empty and none begins with "v". *)
Lemma get_all_semver_tags_entries (w : World) (repo : str) (out : list str) :
  value (get_all_semver_tags w repo) = Ok out -> Forall version_shape out.
Proof.
  intros H. destruct (get_all_semver_tags_collects w repo out H)
    as [cp [_ [_ Hperm]]].
  rewrite <- Hperm. apply collect_semver_shape.
Qed.




(** * Further properties of the program *)

(** ** Version Locator: the three outcomes *)

(** X1. The locator answers absent exactly when the list opens with the
    target; a predecessor it returns is an element of the list other than
    the target; and the only error it raises is the ValueError of a target
    that is not in the list. *)
Theorem find_previous_version_outcomes (all_versions : list str)
  (target : str) :
  (value (find_previous_version all_versions target) = Ok None
   <-> hd_error all_versions = Some target) /\
  (forall p,
     value (find_previous_version all_versions target) = Ok (Some p) ->
     In p all_versions /\ In target all_versions /\ p <> target) /\
  (forall e,
     value (find_previous_version all_versions target) = Raise e ->
     ~ In target all_versions /\ e = mk_exn ValueError None).
Proof.
  destruct (list_contains target all_versions) eqn:Hc.
  - apply list_contains_In in Hc.
    destruct (In_first_split _ _ Hc) as [pre [post [-> Hpre]]].
    destruct pre as [|q pre'] using rev_ind.
    + simpl. rewrite find_previous_version_first. simpl.
      repeat split; auto; discriminate.
    + clear IHpre'. rewrite <- app_assoc. simpl.
      rewrite find_previous_version_after by assumption. simpl.
      assert (Hhd : hd_error (pre' ++ q :: target :: post) <> Some target).
      { intros Hhd. apply Hpre.
        destruct pre'; simpl in Hhd; inversion Hhd; subst; simpl; auto. }
      split; [split; [discriminate | intros E; destruct (Hhd E)]|].
      split; [|discriminate].
      intros p E. inversion E; subst p.
      split; [apply in_or_app; right; left; reflexivity|].
      split; [apply in_or_app; right; right; left; reflexivity|].
      intros ->. apply Hpre. apply in_or_app. right. left. reflexivity.
  - assert (Hn : ~ In target all_versions).
    { intros H. apply list_contains_In in H. congruence. }
    unfold find_previous_version. rewrite (list_index_absent _ _ Hn). simpl.
    split; [split; [discriminate|]|].
    + intros Hhd. exfalso. apply Hn.
      destruct all_versions; inversion Hhd; subst. left. reflexivity.
    + split; [discriminate|]. intros e E. inversion E. auto.
Qed.

Lemma find_previous_version_outcomes_witness :
  In (lit "1.0.0") three_versions /\ lit "1.0.0" <> lit "1.1.0".
Proof.
  destruct (proj1 (proj2 (find_previous_version_outcomes
                            three_versions (lit "1.1.0")))
              (lit "1.0.0") eq_refl) as [H1 [_ H3]].
  split; assumption.
Defined.

(** ** Command Runner: what comes back is trimmed *)

Lemma lstrip_starts (s : str) : lstrip s = [] \/ starts_with_text (lstrip s).
Proof.
  induction s as [|c s IH]; simpl; [auto|].
  destruct (isspace c) eqn:E; [exact IH|]. right. simpl. exact E.
Qed.

Lemma lstrip_suffix (s : str) : exists ws, s = ws ++ lstrip s.
Proof.
  induction s as [|c s [ws IH]]; simpl; [exists []; reflexivity|].
  destruct (isspace c).
  - exists (c :: ws). simpl. rewrite <- IH. reflexivity.
  - exists []. reflexivity.
Qed.

(** What [strip] returns is empty, or begins and ends with characters that
    are not whitespace. *)
Lemma strip_trimmed (s : str) :
  strip s = [] \/ (starts_with_text (strip s) /\ ends_with_text (strip s)).
Proof.
  unfold strip, rstrip.
  destruct (lstrip_starts s) as [E | Ht]; [rewrite E; left; reflexivity|].
  destruct (lstrip_suffix (rev (lstrip s))) as [ws Hws].
  destruct (lstrip_starts (rev (lstrip s))) as [E | Hu];
    [rewrite E; left; reflexivity|].
  right. split.
  - set (u := lstrip (rev (lstrip s))) in *.
    assert (Ht' : lstrip s = rev u ++ rev ws).
    { rewrite <- (rev_involutive (lstrip s)), Hws, rev_app_distr.
      reflexivity. }
    rewrite Ht' in Ht. destruct (rev u) as [|c r] eqn:Er.
    + exfalso. assert (u = []) as Hnil
          by (rewrite <- (rev_involutive u), Er; reflexivity).
      rewrite Hnil in Hu. exact Hu.
    + exact Ht.
  - unfold ends_with_text. rewrite rev_involutive. exact Hu.
Qed.

Lemma run_git_command_returns_trimmed (w : World) (repo : str)
  (args : list str) (out : str) :
  value (run_git_command w repo args) = Ok out ->
  out = [] \/ (starts_with_text out /\ ends_with_text out).
Proof.
  rewrite run_git_command_unfold.
  destruct (subprocess_run w _) as [cp|e]; [|discriminate].
  unfold value. simpl fst.
  destruct (negb (Z.eqb (returncode cp) 0)); [discriminate|].
  intros H. inversion H; subst out. apply strip_trimmed.
Qed.

(** X2. Whatever text the runner returns is empty or begins and ends with
    a character that is not whitespace, so trimming it again changes
    nothing. *)
Theorem run_git_command_output_trimmed (w : World) (repo : str)
  (args : list str) (out : str) :
  value (run_git_command w repo args) = Ok out ->
  (out = [] \/ (starts_with_text out /\ ends_with_text out)) /\
  strip out = out.
Proof.
  intros H.
  pose proof (run_git_command_returns_trimmed w repo args out H) as Ht.
  split; [exact Ht|].
  destruct Ht as [E | [Hs He]]; [rewrite E; reflexivity|].
  apply strip_text; assumption.
Qed.

Lemma run_git_command_output_trimmed_witness :
  value (run_git_command indented_world (lit "/repo") [lit "log"])
    = Ok (lit "Fix bug" ++ [LF] ++ lit "Add feature") /\
  strip (lit "Fix bug" ++ [LF] ++ lit "Add feature")
    = lit "Fix bug" ++ [LF] ++ lit "Add feature".
Proof.
  assert (H : value (run_git_command indented_world (lit "/repo") [lit "log"])
              = Ok (lit "Fix bug" ++ [LF] ++ lit "Add feature"))
    by reflexivity.
  split; [exact H|].
  exact (proj2 (run_git_command_output_trimmed indented_world (lit "/repo")
                  [lit "log"] _ H)).
Defined.

(** ** Commit Range Reader: the entries it returns *)

Lemma linebreak_is_space (c : char) : islinebreak c = true -> isspace c = true.
Proof.
  unfold islinebreak, isspace, in_range. intros H.
  rewrite ?orb_true_iff, ?andb_true_iff, ?N.leb_le, ?N.eqb_eq in *. lia.
Qed.

Lemma text_not_linebreak (c : char) : isspace c = false -> islinebreak c = false.
Proof.
  intros H. destruct (islinebreak c) eqn:E; [|reflexivity].
  apply linebreak_is_space in E. congruence.
Qed.

(** Once a line has begun, it is the first line returned and is not
    empty. *)
Lemma splitlines_from_head (s cur : str) :
  cur <> [] ->
  exists l rest, splitlines_from cur s = l :: rest /\ l <> [].
Proof.
  assert (Hrev : forall t : str, t <> [] -> rev t <> []).
  { intros t Ht E. apply Ht. rewrite <- (rev_involutive t), E. reflexivity. }
  revert cur. induction s as [|c s IH]; intros cur Hcur; simpl.
  - destruct cur as [|x cur']; [congruence|]. eexists _, _.
    split; [reflexivity | apply Hrev; discriminate].
  - destruct (islinebreak c).
    + eexists _, _. split; [reflexivity | apply Hrev; assumption].
    + apply IH. discriminate.
Qed.

Lemma ends_with_text_cons (c c' : char) (s : str) :
  ends_with_text (c :: c' :: s) <-> ends_with_text (c' :: s).
Proof.
  unfold ends_with_text. simpl. destruct (rev s ++ [c']) eqn:E.
  - destruct (rev s); discriminate E.
  - simpl. tauto.
Qed.

Lemma last_opt_cons_nonempty {A} (x : A) (l : list A) :
  l <> [] -> last_opt (x :: l) = last_opt l.
Proof. destruct l as [|y l']; [congruence|]. intros _. apply last_opt_cons. Qed.

Lemma splitlines_from_cons2 (cur : str) (c c' : char) (rest : str) :
  splitlines_from cur (c :: c' :: rest) =
  if islinebreak c
  then rev cur ::
       (if (N.eqb c CR && N.eqb c' LF)%bool
        then splitlines_from [] rest
        else splitlines_from [] (c' :: rest))
  else splitlines_from (c :: cur) (c' :: rest).
Proof. reflexivity. Qed.

(** A text that ends with a character that is not whitespace has a last
    line, which is not empty. *)
Lemma splitlines_from_last (s cur : str) :
  ends_with_text s ->
  exists l, last_opt (splitlines_from cur s) = Some l /\ l <> [].
Proof.
  revert cur.
  induction s as [s IH] using (well_founded_induction
    (Wf_nat.well_founded_ltof _ (@List.length char))).
  intros cur He. destruct s as [|c rest]; [destruct He|].
  destruct rest as [|c' rest'].
  - unfold ends_with_text in He. simpl in He.
    simpl. rewrite (text_not_linebreak c He). simpl.
    exists (rev cur ++ [c]). split; [reflexivity|].
    destruct (rev cur); discriminate.
  - apply ends_with_text_cons in He.
    assert (Htail : forall cur' t,
              ends_with_text t -> (List.length t < List.length (c :: c' :: rest'))%nat ->
              exists l, last_opt (rev cur' :: splitlines_from [] t) = Some l
                        /\ l <> []).
    { intros cur' t Ht Hlen.
      destruct (IH t Hlen [] Ht) as [l [Hl Hne]].
      exists l. split; [|exact Hne]. rewrite last_opt_cons_nonempty; [exact Hl|].
      intros E. rewrite E in Hl. discriminate Hl. }
    rewrite splitlines_from_cons2. destruct (islinebreak c) eqn:Ec.
    + destruct (N.eqb c CR && N.eqb c' LF)%bool eqn:Ecr.
      * apply andb_true_iff in Ecr. destruct Ecr as [_ E2].
        apply N.eqb_eq in E2. subst c'.
        destruct rest' as [|c'' rest''].
        -- unfold ends_with_text in He. simpl in He. discriminate He.
        -- apply ends_with_text_cons in He.
           apply Htail; [exact He | simpl; lia].
      * apply Htail; [exact He | simpl; lia].
    + apply (IH (c' :: rest')); [unfold Wf_nat.ltof; simpl; lia | exact He].
Qed.

(** X3. Every entry the reader returns is a single line, free of line
    boundaries, and neither the first nor the last entry is empty: blank
    subjects at either end of the range are lost with the trimming. *)
Theorem get_commits_between_versions_entries (w : World)
  (repo from_v to_v : str) (commits : list str) :
  value (get_commits_between_versions w repo from_v to_v) = Ok commits ->
  Forall (fun c => no_linebreak c = true) commits /\
  hd_error commits <> Some [] /\
  last_opt commits <> Some [].
Proof.
  rewrite get_commits_unfold.
  destruct (value (run_git_command w repo _)) as [log|e] eqn:Hlog;
    [|discriminate].
  intros H. inversion H; subst commits. clear H.
  split; [apply splitlines_no_linebreak|].
  destruct (run_git_command_returns_trimmed w repo _ log Hlog)
    as [-> | [Hs He]]; [split; discriminate|].
  split.
  - destruct log as [|c log']; [destruct Hs|]. simpl in Hs.
    unfold splitlines. simpl. rewrite (text_not_linebreak c Hs).
    destruct (splitlines_from_head log' [c]) as [l [rest [-> Hne]]];
      [discriminate|].
    simpl. intros E. inversion E. congruence.
  - destruct (splitlines_from_last log [] He) as [l [Hl Hne]].
    unfold splitlines. rewrite Hl. intros E. inversion E. congruence.
Qed.

Lemma get_commits_between_versions_entries_witness :
  value (get_commits_between_versions offline_world
           (lit "/repo") (lit "1.0.0") (lit "1.1.0"))
    = Ok [lit "Fix bug"; lit "Add feature"] /\
  Forall (fun c => no_linebreak c = true) [lit "Fix bug"; lit "Add feature"] /\
  hd_error [lit "Fix bug"; lit "Add feature"] <> Some [] /\
  last_opt [lit "Fix bug"; lit "Add feature"] <> Some [].
Proof.
  assert (H : value (get_commits_between_versions offline_world
                       (lit "/repo") (lit "1.0.0") (lit "1.1.0"))
              = Ok [lit "Fix bug"; lit "Add feature"]) by reflexivity.
  split; [exact H|].
  exact (get_commits_between_versions_entries offline_world
           (lit "/repo") (lit "1.0.0") (lit "1.1.0") _ H).
Defined.

(** ** Summary Formatter: the shape of what it returns *)

Lemma last_opt_map {A B} (f : A -> B) (l : list A) :
  last_opt (List.map f l) = option_map f (last_opt l).
Proof.
  unfold last_opt. rewrite <- map_rev. destruct (rev l); reflexivity.
Qed.

Lemma last_opt_None {A} (l : list A) : last_opt l = None -> l = [].
Proof.
  unfold last_opt. destruct (rev l) eqn:E; [|discriminate].
  intros _. rewrite <- (rev_involutive l), E. reflexivity.
Qed.

Lemma bullet_line_no_linebreak (msg : str) :
  no_linebreak msg = true -> no_linebreak (BULLET :: SPACE :: msg) = true.
Proof. intros H. simpl. exact H. Qed.

Lemma fallback_summary_join (c : str) (cs : list str) :
  fallback_summary (c :: cs) =
  join [LF] (lit "What's New:" :: [] ::
             List.map (fun msg => BULLET :: SPACE :: msg) (c :: cs)).
Proof.
  unfold fallback_summary, bullet_list. simpl List.map.
  rewrite join_cons2. rewrite join_cons2. reflexivity.
Qed.

(** X4. When the service fails and no commit message holds a line
    boundary, as is the case of the messages the reader returns, the
    summary reads back line by line as the heading, an empty line, and one
    line per commit in order, each made of the bullet, a space and the
    message. *)
Theorem fallback_summary_lines (w : World) (commits : list str) (v : str) :
  commits <> [] ->
  Forall (fun c => no_linebreak c = true) commits ->
  service_fails w (request_of (prompt_of (bullet_list commits) v)) ->
  exists summary,
    value (format_whats_new_with_claude w commits v) = Ok summary /\
    splitlines summary =
      lit "What's New:" :: [] ::
      List.map (fun msg => BULLET :: SPACE :: msg) commits.
Proof.
  intros Hne Hnb Hf. destruct commits as [|c cs]; [congruence|].
  exists (fallback_summary (c :: cs)). split.
  - unfold format_whats_new_with_claude, try_except_Exception.
    destruct (ask_service_fails w (c :: cs) v Hf) as [e [t [-> He]]].
    rewrite He. reflexivity.
  - assert (Hlast : exists m, last_opt (c :: cs) = Some m).
    { destruct (last_opt (c :: cs)) as [m|] eqn:E; [eauto|].
      apply last_opt_None in E. discriminate E. }
    destruct Hlast as [last_line Hlast].
    assert (Hbullet : last_opt (List.map (fun msg => BULLET :: SPACE :: msg)
                                  (c :: cs))
                      = Some (BULLET :: SPACE :: last_line))
      by (rewrite last_opt_map;
          exact (f_equal (option_map (fun msg => BULLET :: SPACE :: msg))
                   Hlast)).
    rewrite fallback_summary_join. apply splitlines_join.
    + constructor; [reflexivity|]. constructor; [reflexivity|].
      rewrite Forall_map. eapply Forall_impl; [|exact Hnb].
      intros m Hm. apply bullet_line_no_linebreak. exact Hm.
    + change (lit "What's New:" :: [] ::
              List.map (fun msg => BULLET :: SPACE :: msg) (c :: cs))
        with ([lit "What's New:"; []] ++
              List.map (fun msg => BULLET :: SPACE :: msg) (c :: cs)).
      rewrite (last_opt_app _ _ (BULLET :: SPACE :: last_line));
        [discriminate | exact Hbullet].
Qed.

Lemma fallback_summary_lines_witness :
  exists summary,
    value (format_whats_new_with_claude offline_world
             [lit "Fix bug"; lit "Add feature"] (lit "1.0.0")) = Ok summary /\
    splitlines summary =
      [lit "What's New:"; []; BULLET :: SPACE :: lit "Fix bug";
       BULLET :: SPACE :: lit "Add feature"].
Proof.
  refine (fallback_summary_lines offline_world
            [lit "Fix bug"; lit "Add feature"] (lit "1.0.0") _ _ _).
  - discriminate.
  - repeat constructor.
  - apply call_error with (e := connection_error); reflexivity.
Defined.



(** X6. An error that does not derive from Exception, such as an interrupt
    or an exit request, raised while the client is constructed or during the
    call, is not turned into the bulleted list: it leaves the formatter as
    it is. *)
Theorem format_propagates_non_Exception (w : World) (commits : list str)
  (v : str) (e : exn) :
  commits <> [] ->
  isinstance_Exception e = false ->
  Anthropic w = Raise e \/
  (Anthropic w = Ok tt /\
   messages_create w (request_of (prompt_of (bullet_list commits) v))
     = Raise e) ->
  value (format_whats_new_with_claude w commits v) = Raise e.
Proof.
  intros Hne He H. destruct commits as [|c cs]; [congruence|].
  unfold format_whats_new_with_claude, try_except_Exception, ask_service,
    bind, perform.
  destruct H as [Hc | [Hc Hm]].
  - rewrite Hc, He. reflexivity.
  - rewrite Hc, Hm. simpl. rewrite He. reflexivity.
Qed.

Lemma format_propagates_non_Exception_witness :
  value (format_whats_new_with_claude interrupted_world
           [lit "Fix bug"] (lit "1.1.0"))
    = Raise keyboard_interrupt.
Proof.
  refine (format_propagates_non_Exception interrupted_world
            [lit "Fix bug"] (lit "1.1.0") keyboard_interrupt _ eq_refl _).
  - discriminate.
  - left. reflexivity.
Defined.

(** ** Tag Collector: where the entries come from *)

Lemma semver_match_self (g : str) :
  version_shape g -> Re.semver_match g = Some g.
Proof.
  intros Hs. apply semver_match_spec. exists [], [].
  rewrite app_nil_r. simpl. repeat split.
  - apply Re.MOptNone.
  - apply semver_group_shape. exact Hs.
  - left. reflexivity.
Qed.

Lemma collect_semver_fixed (l : list str) :
  Forall version_shape l -> collect_semver l = l.
Proof.
  induction 1 as [|g l Hg _ IH]; [reflexivity|].
  simpl. rewrite (semver_match_self g Hg), IH. reflexivity.
Qed.

(** X7. When the collector returns, a string is in its result exactly when
    it is three runs of decimal digits separated by dots and the tag
    listing has it as a line, bare or behind a "v": nothing is invented and
    no such tag is left out. *)
Theorem get_all_semver_tags_membership (w : World) (repo : str)
  (cp : CompletedProcess) (out : list str) :
  subprocess_run w (tag_argv repo) = Ok cp ->
  value (get_all_semver_tags w repo) = Ok out ->
  forall g,
    In g out <->
    version_shape g /\
    (In g (splitlines (strip (stdout cp))) \/
     In (LOWER_V :: g) (splitlines (strip (stdout cp)))).
Proof.
  intros Hrun Hout g.
  destruct (get_all_semver_tags_collects w repo out Hout)
    as [cp' [Hrun' [_ Hperm]]].
  rewrite Hrun in Hrun'. inversion Hrun'; subst cp'. clear Hrun'.
  split.
  - intros Hin. apply (Permutation_in _ (Permutation_sym Hperm)) in Hin.
    destruct (collected_entry_normalized _ _ Hin)
      as [Hs [tag [Htag [_ [-> | ->]]]]]; auto.
  - intros [Hs Hin]. apply (Permutation_in _ Hperm).
    apply collect_semver_In. apply semver_group_shape in Hs.
    destruct Hin as [Hin | Hin].
    + exists g. split; [exact Hin|]. exists [], [].
      rewrite app_nil_r. simpl. repeat split; auto.
      * apply Re.MOptNone.
      * left. reflexivity.
    + exists (LOWER_V :: g). split; [exact Hin|]. exists [LOWER_V], [].
      rewrite app_nil_r. simpl. repeat split; auto.
      * apply Re.MOptSome, Re.MChr.
      * left. reflexivity.
Qed.

Lemma get_all_semver_tags_membership_witness :
  In (lit "1.2.3") [lit "1.2.3"; lit "9.9.9"; lit "10.0.0"] <->
  version_shape (lit "1.2.3") /\
  (In (lit "1.2.3")
      [lit "10.0.0"; lit "1.2"; lit "9.9.9"; lit "release-1"; lit "v1.2.3"] \/
   In (LOWER_V :: lit "1.2.3")
      [lit "10.0.0"; lit "1.2"; lit "9.9.9"; lit "release-1"; lit "v1.2.3"]).
Proof.
  refine (get_all_semver_tags_membership mixed_tags_world (lit "/repo")
            (mk_process 0
               (lit "10.0.0" ++ [LF] ++ lit "1.2" ++ [LF] ++ lit "9.9.9"
                ++ [LF] ++ lit "release-1" ++ [LF] ++ lit "v1.2.3" ++ [LF])
               [])
            [lit "1.2.3"; lit "9.9.9"; lit "10.0.0"] eq_refl _ (lit "1.2.3")).
  vm_compute. reflexivity.
Defined.

(** X8. The versions the collector returns are in normal form: each one
    matches the tag pattern as its own group, so collecting the result
    again gives the result back and no returned version begins with
    "v". *)
Theorem get_all_semver_tags_normal_form (w : World) (repo : str)
  (out : list str) :
  value (get_all_semver_tags w repo) = Ok out ->
  Forall (fun g => Re.semver_pattern_matches g g) out /\
  collect_semver out = out /\
  (forall rest, ~ In (LOWER_V :: rest) out).
Proof.
  intros H. pose proof (get_all_semver_tags_entries w repo out H) as Hs.
  split; [|split].
  - eapply Forall_impl; [|exact Hs]. intros g Hg.
    apply semver_match_spec, semver_match_self. exact Hg.
  - apply collect_semver_fixed. exact Hs.
  - intros rest Hin. rewrite Forall_forall in Hs.
    exact (version_shape_not_v _ rest (Hs _ Hin) eq_refl).
Qed.

Lemma get_all_semver_tags_normal_form_witness :
  value (get_all_semver_tags v_tagged_world (lit "/repo"))
    = Ok [lit "1.0.0"; lit "1.1.0"] /\
  collect_semver [lit "1.0.0"; lit "1.1.0"] = [lit "1.0.0"; lit "1.1.0"].
Proof.
  assert (H : value (get_all_semver_tags v_tagged_world (lit "/repo"))
              = Ok [lit "1.0.0"; lit "1.1.0"]) by (vm_compute; reflexivity).
  split; [exact H|].
  exact (proj1 (proj2 (get_all_semver_tags_normal_form v_tagged_world
                         (lit "/repo") _ H))).
Defined.



(** ** Tag Collector: a listing already in order *)





(** ** Tag Collector and Version Locator together *)





(** ** Entry Point: how a run ends *)

Lemma bind_raise {A B} (m : M A) (e : exn) (f : A -> M B) :
  value m = Raise e -> bind m f = (Raise e, trace m).
Proof. destruct m as [r t]. simpl. intros ->. reflexivity. Qed.

Lemma M_eta {A} (m : M A) : m = (value m, trace m).
Proof. destruct m; reflexivity. Qed.

Lemma trace_run_git_command (w : World) (repo : str) (args : list str) :
  trace (run_git_command w repo args)
    = [Spawn ([lit "git"; lit "-C"; repo] ++ args)].
Proof.
  rewrite run_git_command_unfold.
  destruct (subprocess_run w _); reflexivity.
Qed.

Lemma trace_get_all_semver_tags (w : World) (repo : str) :
  trace (get_all_semver_tags w repo) = [Spawn (tag_argv repo)].
Proof.
  unfold get_all_semver_tags.
  destruct (value (run_git_command w repo [lit "tag"])) as [out|e] eqn:E.
  - rewrite (bind_trace _ _ _ E), trace_run_git_command. reflexivity.
  - rewrite (bind_raise _ _ _ E). simpl. apply trace_run_git_command.
Qed.

Lemma trace_get_commits (w : World) (repo from_v to_v : str) :
  trace (get_commits_between_versions w repo from_v to_v)
    = [Spawn (log_argv repo from_v to_v)].
Proof.
  unfold get_commits_between_versions.
  destruct (value (run_git_command w repo
                     [lit "log"; from_v ++ lit ".." ++ to_v;
                      lit "--pretty=format:%s"])) as [out|e] eqn:E.
  - rewrite (bind_trace _ _ _ E), trace_run_git_command. reflexivity.
  - rewrite (bind_raise _ _ _ E). simpl. apply trace_run_git_command.
Qed.

Lemma trace_find_previous_version (l : list str) (v : str) :
  trace (find_previous_version l v) = [].
Proof.
  unfold find_previous_version.
  destruct (list_index v l) as [i|]; [|reflexivity].
  destruct (Nat.ltb 0 i); [|reflexivity].
  destruct (nth_error l (i - 1)); reflexivity.
Qed.

(** What [main] does once the tags are collected. *)
Lemma main_after_tags (w : World) (args : Args) (repo : str)
  (all_versions : list str) :
  os_path_abspath w (repo_path args) = Ok repo ->
  value (get_all_semver_tags w repo) = Ok all_versions ->
  forall rest : M unit,
    rest =
      (if negb (list_contains (version args) all_versions)
       then raise ValueError
              (Some (lit "Version " ++ version args
                     ++ lit " not found in tags."))
       else
         prev_version <- find_previous_version all_versions (version args) ;;
         match prev_version with
         | None | Some [] =>
             raise ValueError (Some (lit "No previous version found."))
         | Some prev =>
             commits <- get_commits_between_versions w repo prev
                          (version args) ;;
             summary <- format_whats_new_with_claude w commits
                          (version args) ;;
             print w summary
         end) ->
    main w args = (value rest, Spawn (tag_argv repo) :: trace rest).
Proof.
  intros Hrepo Hall rest ->.
  assert (Hpath : value ((os_path_abspath w (repo_path args), []) : M str)
                  = Ok repo) by exact Hrepo.
  rewrite (M_eta (main w args)). unfold main.
  rewrite (bind_value _ _ _ Hpath), (bind_trace _ _ _ Hpath).
  rewrite (bind_value _ _ _ Hall), (bind_trace _ _ _ Hall).
  rewrite trace_get_all_semver_tags. reflexivity.
Qed.

(** X12. A requested version that is not among the collected ones ends the
    run with "Version ... not found in tags." after the tag listing alone:
    no log is read, the service is not contacted, nothing is printed. *)
Theorem main_version_not_found (w : World) (args : Args) (repo : str)
  (all_versions : list str) :
  os_path_abspath w (repo_path args) = Ok repo ->
  value (get_all_semver_tags w repo) = Ok all_versions ->
  ~ In (version args) all_versions ->
  value (main w args)
    = Raise (mk_exn ValueError
               (Some (lit "Version " ++ version args
                      ++ lit " not found in tags."))) /\
  trace (main w args) = [Spawn (tag_argv repo)].
Proof.
  intros Hrepo Hall Hn.
  rewrite (main_after_tags w args repo all_versions Hrepo Hall _ eq_refl).
  assert (Hc : list_contains (version args) all_versions = false).
  { destruct (list_contains (version args) all_versions) eqn:E;
      [|reflexivity].
    apply list_contains_In in E. destruct (Hn E). }
  rewrite Hc. split; reflexivity.
Qed.

Lemma main_version_not_found_witness :
  value (main offline_world (mk_args (lit "/repo") (lit "2.0.0")))
    = Raise (mk_exn ValueError
               (Some (lit "Version 2.0.0 not found in tags."))) /\
  trace (main offline_world (mk_args (lit "/repo") (lit "2.0.0")))
    = [Spawn (tag_argv (lit "/repo"))].
Proof.
  refine (main_version_not_found offline_world
            (mk_args (lit "/repo") (lit "2.0.0")) (lit "/repo")
            [lit "1.0.0"; lit "1.1.0"] eq_refl _ _).
  - vm_compute. reflexivity.
  - simpl. intros [E | [E | []]]; discriminate E.
Defined.

(** X13. Requesting the version that opens the collected list ends the run
    with "No previous version found." after the tag listing alone, also
    when the same version occurs again further on. *)
Theorem main_no_previous_version (w : World) (args : Args) (repo : str)
  (later : list str) :
  os_path_abspath w (repo_path args) = Ok repo ->
  value (get_all_semver_tags w repo) = Ok (version args :: later) ->
  value (main w args)
    = Raise (mk_exn ValueError (Some (lit "No previous version found."))) /\
  trace (main w args) = [Spawn (tag_argv repo)].
Proof.
  intros Hrepo Hall.
  rewrite (main_after_tags w args repo _ Hrepo Hall _ eq_refl).
  assert (Hc : list_contains (version args) (version args :: later) = true)
    by (apply list_contains_In; left; reflexivity).
  rewrite Hc. cbn [negb].
  rewrite find_previous_version_first. split; reflexivity.
Qed.

Lemma main_no_previous_version_witness :
  value (main offline_world (mk_args (lit "/repo") (lit "1.0.0")))
    = Raise (mk_exn ValueError (Some (lit "No previous version found."))) /\
  trace (main offline_world (mk_args (lit "/repo") (lit "1.0.0")))
    = [Spawn (tag_argv (lit "/repo"))].
Proof.
  refine (main_no_previous_version offline_world
            (mk_args (lit "/repo") (lit "1.0.0")) (lit "/repo")
            [lit "1.1.0"] eq_refl _).
  vm_compute. reflexivity.
Defined.

(** X14. Whatever error the tag collection raises (git exiting with a
    status other than zero, a tag the version parser rejects) is the error
    the run ends with, after the tag listing alone; in particular a git
    failure is reported as "Git error: " followed by its standard error. *)
Theorem main_tag_collection_fails (w : World) (args : Args) (repo : str) :
  os_path_abspath w (repo_path args) = Ok repo ->
  (forall e,
     value (get_all_semver_tags w repo) = Raise e ->
     value (main w args) = Raise e /\
     trace (main w args) = [Spawn (tag_argv repo)]) /\
  (forall cp,
     subprocess_run w (tag_argv repo) = Ok cp ->
     returncode cp <> 0%Z ->
     value (main w args)
       = Raise (mk_exn Exception_ (Some (lit "Git error: " ++ stderr cp)))).
Proof.
  intros Hrepo.
  assert (Hpath : value ((os_path_abspath w (repo_path args), []) : M str)
                  = Ok repo) by exact Hrepo.
  assert (Hfail : forall e,
            value (get_all_semver_tags w repo) = Raise e ->
            value (main w args) = Raise e /\
            trace (main w args) = [Spawn (tag_argv repo)]).
  { intros e He. unfold main.
    rewrite (bind_value _ _ _ Hpath), (bind_trace _ _ _ Hpath).
    rewrite (bind_raise _ _ _ He), trace_get_all_semver_tags.
    split; reflexivity. }
  split; [exact Hfail|].
  intros cp Hrun Hrc. apply Hfail.
  rewrite get_all_semver_tags_unfold, run_git_command_unfold.
  change ([lit "git"; lit "-C"; repo] ++ [lit "tag"]) with (tag_argv repo).
  rewrite Hrun. unfold value. simpl fst.
  destruct (Z.eqb_spec (returncode cp) 0) as [E|E]; [destruct (Hrc E)|].
  reflexivity.
Qed.

Lemma main_tag_collection_fails_witness :
  value (main broken_world (mk_args (lit "/repo") (lit "1.0.0")))
    = Raise (mk_exn Exception_
               (Some (lit "Git error: fatal: not a git repository"))).
Proof.
  refine (proj2 (main_tag_collection_fails broken_world
                   (mk_args (lit "/repo") (lit "1.0.0")) (lit "/repo") eq_refl)
            (mk_process 128 [] (lit "fatal: not a git repository"))
            eq_refl _).
  simpl. discriminate.
Defined.

(** What [main] does once the predecessor is found. *)
Lemma main_after_locator (w : World) (args : Args) (repo : str)
  (all_versions pre post : list str) (prev : str) :
  os_path_abspath w (repo_path args) = Ok repo ->
  value (get_all_semver_tags w repo) = Ok all_versions ->
  all_versions = pre ++ prev :: version args :: post ->
  ~ In (version args) (pre ++ [prev]) ->
  forall rest : M unit,
    rest =
      (commits <- get_commits_between_versions w repo prev (version args) ;;
       summary <- format_whats_new_with_claude w commits (version args) ;;
       print w summary) ->
    main w args = (value rest, Spawn (tag_argv repo) :: trace rest).
Proof.
  intros Hrepo Hall Hsplit Hfirst rest ->.
  pose proof (get_all_semver_tags_entries _ _ _ Hall) as Hshape.
  rewrite (main_after_tags w args repo all_versions Hrepo Hall _ eq_refl).
  assert (Hin : list_contains (version args) all_versions = true).
  { apply list_contains_In. rewrite Hsplit.
    apply in_or_app. right. right. left. reflexivity. }
  assert (Hprev : exists c prev', prev = c :: prev').
  { rewrite Forall_forall in Hshape.
    destruct (version_shape_head prev) as [c [p' [E _]]]; [|eauto].
    apply Hshape. rewrite Hsplit. apply in_or_app. right. left. reflexivity. }
  destruct Hprev as [c [prev' Eprev]].
  assert (Hfind : value (find_previous_version all_versions (version args))
                  = Ok (Some prev)).
  { rewrite Hsplit, (find_previous_version_after pre post prev _ Hfirst).
    reflexivity. }
  rewrite Hin. cbn [negb].
  rewrite (bind_value _ _ _ Hfind), (bind_trace _ _ _ Hfind).
  rewrite trace_find_previous_version. rewrite Eprev. reflexivity.
Qed.

(** X15. When the log command exits with a status other than zero, as git
    does for a range it cannot resolve, the run ends with "Git error: "
    followed by its standard error; two commands were run, the service was
    not contacted and nothing was printed. *)
Theorem main_log_fails (w : World) (args : Args) (repo : str)
  (all_versions pre post : list str) (prev : str) (cp : CompletedProcess) :
  os_path_abspath w (repo_path args) = Ok repo ->
  value (get_all_semver_tags w repo) = Ok all_versions ->
  all_versions = pre ++ prev :: version args :: post ->
  ~ In (version args) (pre ++ [prev]) ->
  subprocess_run w (log_argv repo prev (version args)) = Ok cp ->
  returncode cp <> 0%Z ->
  value (main w args)
    = Raise (mk_exn Exception_ (Some (lit "Git error: " ++ stderr cp))) /\
  trace (main w args)
    = [Spawn (tag_argv repo); Spawn (log_argv repo prev (version args))].
Proof.
  intros Hrepo Hall Hsplit Hfirst Hrun Hrc.
  rewrite (main_after_locator w args repo all_versions pre post prev
             Hrepo Hall Hsplit Hfirst _ eq_refl).
  assert (Hlog : value (get_commits_between_versions w repo prev (version args))
                 = Raise (mk_exn Exception_
                            (Some (lit "Git error: " ++ stderr cp)))).
  { rewrite get_commits_unfold, run_git_command_unfold.
    change ([lit "git"; lit "-C"; repo] ++
            [lit "log"; prev ++ lit ".." ++ version args;
             lit "--pretty=format:%s"])
      with (log_argv repo prev (version args)).
    rewrite Hrun. unfold value. simpl fst.
    destruct (Z.eqb_spec (returncode cp) 0) as [E|E]; [destruct (Hrc E)|].
    reflexivity. }
  rewrite (bind_raise _ _ _ Hlog), trace_get_commits. split; reflexivity.
Qed.

Lemma main_log_fails_witness :
  value (main unknown_revision_world (mk_args (lit "/repo") (lit "1.1.0")))
    = Raise (mk_exn Exception_ (Some (lit "Git error: fatal: bad revision"))) /\
  trace (main unknown_revision_world (mk_args (lit "/repo") (lit "1.1.0")))
    = [Spawn (tag_argv (lit "/repo"));
       Spawn (log_argv (lit "/repo") (lit "1.0.0") (lit "1.1.0"))].
Proof.
  refine (main_log_fails unknown_revision_world
            (mk_args (lit "/repo") (lit "1.1.0")) (lit "/repo")
            [lit "1.0.0"; lit "1.1.0"] [] [] (lit "1.0.0")
            (mk_process 128 [] (lit "fatal: bad revision"))
            eq_refl _ eq_refl _ eq_refl _).
  - vm_compute. reflexivity.
  - simpl. intros [E | []]; discriminate E.
  - simpl. discriminate.
Defined.

(** X16. When the log between the two versions is empty or blank, the run
    prints "No changes found." and returns: two commands were run and the
    service was not contacted. *)
Theorem main_no_changes (w : World) (args : Args) (repo : str)
  (all_versions pre post : list str) (prev : str) (cp : CompletedProcess) :
  os_path_abspath w (repo_path args) = Ok repo ->
  value (get_all_semver_tags w repo) = Ok all_versions ->
  all_versions = pre ++ prev :: version args :: post ->
  ~ In (version args) (pre ++ [prev]) ->
  subprocess_run w (log_argv repo prev (version args)) = Ok cp ->
  returncode cp = 0%Z ->
  strip (stdout cp) = [] ->
  value (main w args) = sys_stdout_write w (lit "No changes found.") /\
  trace (main w args)
    = [Spawn (tag_argv repo); Spawn (log_argv repo prev (version args));
       Printed (lit "No changes found.")].
Proof.
  intros Hrepo Hall Hsplit Hfirst Hrun Hrc Hblank.
  rewrite (main_after_locator w args repo all_versions pre post prev
             Hrepo Hall Hsplit Hfirst _ eq_refl).
  pose proof (get_commits_exit_zero w repo prev (version args) cp Hrun Hrc)
    as Hcommits.
  rewrite Hblank in Hcommits.
  rewrite (bind_value _ _ _ Hcommits), (bind_trace _ _ _ Hcommits).
  rewrite trace_get_commits. split; reflexivity.
Qed.

Lemma main_no_changes_witness :
  value (main empty_range_world (mk_args (lit "/repo") (lit "1.1.0")))
    = Ok tt /\
  trace (main empty_range_world (mk_args (lit "/repo") (lit "1.1.0")))
    = [Spawn (tag_argv (lit "/repo"));
       Spawn (log_argv (lit "/repo") (lit "1.0.0") (lit "1.1.0"));
       Printed (lit "No changes found.")].
Proof.
  refine (main_no_changes empty_range_world
            (mk_args (lit "/repo") (lit "1.1.0")) (lit "/repo")
            [lit "1.0.0"; lit "1.1.0"] [] [] (lit "1.0.0")
            (mk_process 0 [] [])
            eq_refl _ eq_refl _ eq_refl eq_refl eq_refl).
  - vm_compute. reflexivity.
  - simpl. intros [E | []]; discriminate E.
Defined.

(** X17. When the service fails, the run still succeeds: it prints the
    heading and the bulleted lines of the log, last of all, and returns if
    standard output accepts them. *)
Theorem main_service_down (w : World) (args : Args) (repo : str)
  (all_versions pre post : list str) (prev : str) (cp : CompletedProcess)
  (commits : list str) :
  os_path_abspath w (repo_path args) = Ok repo ->
  value (get_all_semver_tags w repo) = Ok all_versions ->
  all_versions = pre ++ prev :: version args :: post ->
  ~ In (version args) (pre ++ [prev]) ->
  subprocess_run w (log_argv repo prev (version args)) = Ok cp ->
  returncode cp = 0%Z ->
  splitlines (strip (stdout cp)) = commits ->
  commits <> [] ->
  service_fails w
    (request_of (prompt_of (bullet_list commits) (version args))) ->
  value (main w args) = sys_stdout_write w (fallback_summary commits) /\
  last_opt (trace (main w args)) = Some (Printed (fallback_summary commits)).
Proof.
  intros Hrepo Hall Hsplit Hfirst Hrun Hrc Hlines Hne Hfail.
  rewrite (main_after_locator w args repo all_versions pre post prev
             Hrepo Hall Hsplit Hfirst _ eq_refl).
  pose proof (get_commits_exit_zero w repo prev (version args) cp Hrun Hrc)
    as Hcommits.
  rewrite Hlines in Hcommits.
  rewrite (bind_value _ _ _ Hcommits), (bind_trace _ _ _ Hcommits).
  rewrite trace_get_commits.
  destruct commits as [|c cs]; [congruence|].
  destruct (ask_service_fails w (c :: cs) (version args) Hfail)
    as [e [t [Hask He]]].
  assert (Hformat : format_whats_new_with_claude w (c :: cs) (version args)
                    = (Ok (fallback_summary (c :: cs)), t ++ [])).
  { unfold format_whats_new_with_claude, try_except_Exception.
    rewrite Hask, He. reflexivity. }
  rewrite Hformat. unfold bind at 1. unfold print, perform.
  unfold value, trace. simpl fst. simpl snd.
  split; [reflexivity|].
  match goal with
  | |- last_opt ?l = _ =>
      replace l
        with (([Spawn (tag_argv repo);
                Spawn (log_argv repo prev (version args))] ++ t)
              ++ [Printed (fallback_summary (c :: cs))])
        by (rewrite app_nil_r, <- app_assoc; reflexivity)
  end.
  apply last_opt_snoc.
Qed.

Lemma main_service_down_witness :
  value (main offline_world (mk_args (lit "/repo") (lit "1.1.0"))) = Ok tt /\
  last_opt (trace (main offline_world (mk_args (lit "/repo") (lit "1.1.0"))))
    = Some (Printed (fallback_summary [lit "Fix bug"; lit "Add feature"])).
Proof.
  refine (main_service_down offline_world
            (mk_args (lit "/repo") (lit "1.1.0")) (lit "/repo")
            [lit "1.0.0"; lit "1.1.0"] [] [] (lit "1.0.0")
            (mk_process 0 (lit "Fix bug" ++ [LF] ++ lit "Add feature") [])
            [lit "Fix bug"; lit "Add feature"]
            eq_refl _ eq_refl _ eq_refl eq_refl eq_refl _ _).
  - vm_compute. reflexivity.
  - simpl. intros [E | []]; discriminate E.
  - discriminate.
  - apply call_error with (e := connection_error); reflexivity.
Defined.

(** X18. When the service answers and the first block of its reply is a
    text block, the run prints that text as it is: one client is
    constructed and one call made, after the two git commands and before
    the print. *)
Theorem main_service_answers (w : World) (args : Args) (repo : str)
  (all_versions pre post : list str) (prev : str) (cp : CompletedProcess)
  (commits : list str) (m : Message) (text : str) (rest : list ContentBlock) :
  os_path_abspath w (repo_path args) = Ok repo ->
  value (get_all_semver_tags w repo) = Ok all_versions ->
  all_versions = pre ++ prev :: version args :: post ->
  ~ In (version args) (pre ++ [prev]) ->
  subprocess_run w (log_argv repo prev (version args)) = Ok cp ->
  returncode cp = 0%Z ->
  splitlines (strip (stdout cp)) = commits ->
  commits <> [] ->
  Anthropic w = Ok tt ->
  messages_create w
    (request_of (prompt_of (bullet_list commits) (version args))) = Ok m ->
  content m = TextBlock text :: rest ->
  value (main w args) = sys_stdout_write w text /\
  trace (main w args)
    = [Spawn (tag_argv repo); Spawn (log_argv repo prev (version args));
       ClientInit;
       ServiceCall
         (request_of (prompt_of (bullet_list commits) (version args)));
       Printed text].
Proof.
  intros Hrepo Hall Hsplit Hfirst Hrun Hrc Hlines Hne Hclient Hreply Hcontent.
  rewrite (main_after_locator w args repo all_versions pre post prev
             Hrepo Hall Hsplit Hfirst _ eq_refl).
  pose proof (get_commits_exit_zero w repo prev (version args) cp Hrun Hrc)
    as Hcommits.
  rewrite Hlines in Hcommits.
  rewrite (bind_value _ _ _ Hcommits), (bind_trace _ _ _ Hcommits).
  rewrite trace_get_commits.
  destruct commits as [|c cs]; [congruence|].
  assert (Hformat : format_whats_new_with_claude w (c :: cs) (version args)
                    = (Ok text,
                       [ClientInit;
                        ServiceCall
                          (request_of (prompt_of (bullet_list (c :: cs))
                                         (version args)))])).
  { unfold format_whats_new_with_claude, try_except_Exception, ask_service,
      bind, perform.
    rewrite Hclient, Hreply, Hcontent. reflexivity. }
  rewrite Hformat. split; reflexivity.
Qed.

Lemma main_service_answers_witness :
  value (main online_world (mk_args (lit "/repo") (lit "1.1.0"))) = Ok tt /\
  trace (main online_world (mk_args (lit "/repo") (lit "1.1.0")))
    = [Spawn (tag_argv (lit "/repo"));
       Spawn (log_argv (lit "/repo") (lit "1.0.0") (lit "1.1.0"));
       ClientInit;
       ServiceCall
         (request_of
            (prompt_of (bullet_list [lit "Fix bug"; lit "Add feature"])
               (lit "1.1.0")));
       Printed (lit "Bug fixes and a new feature.")].
Proof.
  refine (main_service_answers online_world
            (mk_args (lit "/repo") (lit "1.1.0")) (lit "/repo")
            [lit "1.0.0"; lit "1.1.0"] [] [] (lit "1.0.0")
            (mk_process 0 (lit "Fix bug" ++ [LF] ++ lit "Add feature") [])
            [lit "Fix bug"; lit "Add feature"]
            (mk_message [TextBlock (lit "Bug fixes and a new feature.")])
            (lit "Bug fixes and a new feature.") []
            eq_refl _ eq_refl _ eq_refl eq_refl eq_refl _ eq_refl eq_refl
            eq_refl).
  - vm_compute. reflexivity.
  - simpl. intros [E | []]; discriminate E.
  - discriminate.
Defined.

(** ** Entry Point: the order of what a run does *)

Lemma trace_format (w : World) (commits : list str) (v : str) :
  trace (format_whats_new_with_claude w commits v) = [] \/
  trace (format_whats_new_with_claude w commits v) = [ClientInit] \/
  exists req,
    trace (format_whats_new_with_claude w commits v)
      = [ClientInit; ServiceCall req].
Proof.
  destruct commits as [|c cs]; [left; reflexivity|]. right.
  unfold format_whats_new_with_claude, try_except_Exception, ask_service,
    bind, perform.
  destruct (Anthropic w) as [[]|e].
  - right. destruct (messages_create w _) as [m|e].
    + destruct (content m) as [|[text|] rest]; simpl; eexists; reflexivity.
    + simpl. destruct (isinstance_Exception e); eexists; reflexivity.
  - left. destruct (isinstance_Exception e); reflexivity.
Qed.

Lemma after_tags_protocol (w : World) (repo v : str) (all_versions : list str)
  (rest : M unit) :
  rest =
    (if negb (list_contains v all_versions)
     then raise ValueError
            (Some (lit "Version " ++ v ++ lit " not found in tags."))
     else
       prev_version <- find_previous_version all_versions v ;;
       match prev_version with
       | None | Some [] =>
           raise ValueError (Some (lit "No previous version found."))
       | Some prev =>
           commits <- get_commits_between_versions w repo prev v ;;
           summary <- format_whats_new_with_claude w commits v ;;
           print w summary
       end) ->
  exists logs service output,
    trace rest = logs ++ service ++ output /\
    (logs = [] \/ exists prev, logs = [Spawn (log_argv repo prev v)]) /\
    (service = [] \/ service = [ClientInit] \/
     exists req, service = [ClientInit; ServiceCall req]) /\
    (output = [] \/ exists s, output = [Printed s]) /\
    (service ++ output <> [] -> logs <> []) /\
    (value rest = Ok tt -> exists s, output = [Printed s]).
Proof.
  intros ->.
  assert (Hstop : forall m : M unit,
            trace m = [] -> (exists e, value m = Raise e) ->
            exists logs service output,
              trace m = logs ++ service ++ output /\
              (logs = [] \/ exists prev, logs = [Spawn (log_argv repo prev v)]) /\
              (service = [] \/ service = [ClientInit] \/
               exists req, service = [ClientInit; ServiceCall req]) /\
              (output = [] \/ exists s, output = [Printed s]) /\
              (service ++ output <> [] -> logs <> []) /\
              (value m = Ok tt -> exists s, output = [Printed s])).
  { intros m Ht [e He]. exists [], [], []. rewrite Ht, He.
    repeat split; auto; try congruence; try discriminate. }
  destruct (list_contains v all_versions); cbn [negb].
  2: { apply Hstop; [reflexivity | eexists; reflexivity]. }
  destruct (value (find_previous_version all_versions v))
    as [[prev|]|e] eqn:Hfind.
  2: { apply Hstop.
       - rewrite (bind_trace _ _ _ Hfind), trace_find_previous_version.
         reflexivity.
       - rewrite (bind_value _ _ _ Hfind). eexists; reflexivity. }
  2: { apply Hstop.
       - rewrite (bind_raise _ _ _ Hfind). apply trace_find_previous_version.
       - rewrite (bind_raise _ _ _ Hfind). eexists; reflexivity. }
  destruct prev as [|c prev'].
  { apply Hstop.
    - rewrite (bind_trace _ _ _ Hfind), trace_find_previous_version.
      reflexivity.
    - rewrite (bind_value _ _ _ Hfind). eexists; reflexivity. }
  rewrite (bind_value _ _ _ Hfind), (bind_trace _ _ _ Hfind).
  rewrite trace_find_previous_version. cbn [app].
  destruct (value (get_commits_between_versions w repo (c :: prev') v))
    as [commits|e] eqn:Hcommits.
  2: { rewrite (bind_raise _ _ _ Hcommits), trace_get_commits.
       exists [Spawn (log_argv repo (c :: prev') v)], [], [].
       repeat split; eauto; try discriminate. }
  rewrite (bind_value _ _ _ Hcommits), (bind_trace _ _ _ Hcommits).
  rewrite trace_get_commits.
  pose proof (trace_format w commits v) as Hservice.
  destruct (value (format_whats_new_with_claude w commits v))
    as [summary|e] eqn:Hformat.
  - rewrite (bind_value _ _ _ Hformat), (bind_trace _ _ _ Hformat).
    exists [Spawn (log_argv repo (c :: prev') v)],
           (trace (format_whats_new_with_claude w commits v)),
           [Printed summary].
    repeat split; eauto; try discriminate.
  - rewrite (bind_raise _ _ _ Hformat).
    exists [Spawn (log_argv repo (c :: prev') v)],
           (trace (format_whats_new_with_claude w commits v)), [].
    cbn [value trace fst snd]. rewrite app_nil_r.
    repeat split; eauto; try discriminate.
Qed.

(** X19. In every world, a run does things in one order: the tag listing,
    then the log command, then at most one client construction and one
    service call, then at most one print, and it may stop anywhere along
    the way.  The service is contacted and text is printed only after both
    git commands were run, and a run that returns has printed. *)
Theorem main_protocol (w : World) (args : Args) :
  exists spawns service output,
    trace (main w args) = spawns ++ service ++ output /\
    (spawns = [] \/
     (exists repo, spawns = [Spawn (tag_argv repo)]) \/
     (exists repo prev,
        spawns = [Spawn (tag_argv repo);
                  Spawn (log_argv repo prev (version args))])) /\
    (service = [] \/ service = [ClientInit] \/
     exists req, service = [ClientInit; ServiceCall req]) /\
    (output = [] \/ exists s, output = [Printed s]) /\
    (service ++ output <> [] -> List.length spawns = 2%nat) /\
    (value (main w args) = Ok tt -> exists s, output = [Printed s]).
Proof.
  destruct (os_path_abspath w (repo_path args)) as [repo|e] eqn:Hrepo.
  2: { exists [], [], []. unfold main, bind. rewrite Hrepo.
       cbn [value trace fst snd app].
       repeat split; auto; try congruence; try discriminate. }
  destruct (value (get_all_semver_tags w repo)) as [all_versions|e] eqn:Hall.
  - rewrite (main_after_tags w args repo all_versions Hrepo Hall _ eq_refl).
    destruct (after_tags_protocol w repo (version args) all_versions _ eq_refl)
      as [logs [service [output [Ht [Hlogs [Hsvc [Hout [Hafter Hret]]]]]]]].
    cbn [value trace fst snd]. rewrite Ht.
    exists (Spawn (tag_argv repo) :: logs), service, output.
    split; [reflexivity|]. split; [|split; [exact Hsvc|split; [exact Hout|]]].
    + right. destruct Hlogs as [-> | [prev ->]]; [left | right]; eauto.
    + split; [|exact Hret]. intros Hne.
      destruct Hlogs as [-> | [prev ->]]; [|reflexivity].
      destruct (Hafter Hne eq_refl).
  - assert (Hpath : value ((os_path_abspath w (repo_path args), []) : M str)
                    = Ok repo) by exact Hrepo.
    exists [Spawn (tag_argv repo)], [], []. unfold main.
    rewrite (bind_value _ _ _ Hpath), (bind_trace _ _ _ Hpath).
    rewrite (bind_raise _ _ _ Hall), trace_get_all_semver_tags.
    cbn [value trace fst snd app].
    repeat split; eauto; try congruence; try discriminate.
Qed.
